(** * formatSet.py: the TIFF publish pipeline, embedded and verified

    The development follows [src/images/set3/formatSet.py] function by
    function.  Python values are modelled as follows.

    - [str] is [string]; the model covers code points below 128 (ASCII).
    - [int] is [Z].
    - a [Path] is the text of the normalised path.
    - the file system is a finite map from paths to file contents.
    - exceptions are values of [exn]; a computation is a state transformer
      on [world] that returns either an exception or a result, and the
      state reached when the exception is raised is kept.
    - the ImageMagick subprocess is an arbitrary function of the command
      line, the time of the call and the files it sees.
    - the operating system may refuse a rename or a removal: the world
      holds the times at which it does. *)

From Stdlib Require Import ZArith String Ascii List Bool Lia Permutation Sorted.
From stdpp Require Import base option list gmap strings.

Local Open Scope string_scope.
Local Open Scope Z_scope.

(** ** Python strings *)

Module Py.

(** [c.isspace()] for a code point below 128: TAB, LF, VT, FF, CR, the
    four separators FS, GS, RS, US, and the space. *)
Definition isspace (c : ascii) : bool :=
  let n := N_of_ascii c in
  (((9 <=? n) && (n <=? 13)) || ((28 <=? n) && (n <=? 32)))%N.

(** [c.isdigit()], and the class [\d] of [re], below 128. *)
Definition isdigit (c : ascii) : bool :=
  let n := N_of_ascii c in ((48 <=? n) && (n <=? 57))%N.

Definition digit_val (c : ascii) : Z := Z.of_N (N_of_ascii c) - 48.

Fixpoint lstrip (s : string) : string :=
  match s with
  | String c s' => if isspace c then lstrip s' else s
  | EmptyString => EmptyString
  end.

Fixpoint rstrip (s : string) : string :=
  match s with
  | EmptyString => EmptyString
  | String c s' =>
      match rstrip s' with
      | EmptyString => if isspace c then EmptyString else String c EmptyString
      | t => String c t
      end
  end.

(** [s.strip()] *)
Definition strip (s : string) : string := rstrip (lstrip s).

(** [s.isdigit()]: every character is a digit and there is at least one. *)
Fixpoint all_digits (s : string) : bool :=
  match s with
  | EmptyString => true
  | String c s' => isdigit c && all_digits s'
  end.

Definition str_isdigit (s : string) : bool :=
  match s with EmptyString => false | _ => all_digits s end.

(** The digits of a base-10 literal, read left to right.  Single
    underscores are allowed between digits, as in [int("1_000")];
    [seen] tells whether the previous character was a digit. *)
Fixpoint int_digits (acc : Z) (seen : bool) (s : string) : option Z :=
  match s with
  | EmptyString => if seen then Some acc else None
  | String c s' =>
      if isdigit c then int_digits (10 * acc + digit_val c) true s'
      else if Ascii.eqb c "_" then
        (if seen then int_digits acc false s' else None)
      else None
  end.

(** [int(s)] in base 10: surrounding white space is dropped, one sign is
    allowed, then the digits.  [None] stands for [ValueError].  (The cap
    [sys.int_max_str_digits] on the length of a literal is left out: it
    only turns some further strings into [ValueError].) *)
Definition int (s : string) : option Z :=
  match strip s with
  | String "+" r => int_digits 0 false r
  | String "-" r => Z.opp <$> int_digits 0 false r
  | t => int_digits 0 false t
  end.

Definition lower_char (c : ascii) : ascii :=
  let n := N_of_ascii c in
  if ((65 <=? n) && (n <=? 90))%N then ascii_of_N (n + 32) else c.

(** [s.lower()] *)
Fixpoint lower (s : string) : string :=
  match s with
  | EmptyString => EmptyString
  | String c s' => String (lower_char c) (lower s')
  end.

(** [a in b] for strings *)
Definition contains (a b : string) : bool :=
  match String.index 0 a b with Some _ => true | None => false end.

End Py.

(** ** Exceptions, the world, and computations *)

(** [subprocess.CompletedProcess] with [capture_output=True, text=True]. *)
Record completed_process := CompletedProcess {
  returncode : Z;
  stdout : string;
  stderr : string
}.

(** The exceptions of the program, all below [Exception].  [RuntimeError]
    is the one [run_cmd] raises; it carries the command line and the
    captured output.  [OSError] stands for any operating-system error other
    than [FileNotFoundError]. *)
Inductive exn :=
  | RuntimeError (args : list string) (out err : string)
  | FileNotFoundError
  | OSError
  | TypeError
  | ValueError.

(** What a run leaves behind, in order: the names appended to [basenames],
    the assets whose [try] block was entered, the command lines handed to
    [subprocess.run], the exceptions caught by the loop, and the manifests
    written by [json.dump]. *)
Inductive event :=
  | EAppend (base : string)
  | ETry (name : string)
  | ECmd (args : list string)
  | ECaught (name : string) (e : exn)
  | EManifest (basenames : list string).

Record world := World {
  files : gmap string string;   (* path to contents *)
  clock : nat;                  (* system calls made so far *)
  refused : list nat;           (* times at which the OS refuses *)
  log : list event              (* oldest first *)
}.

Definition M (A : Type) : Type := world -> world * (exn + A).

Definition ret {A} (a : A) : M A := fun w => (w, inr a).

Definition raise {A} (e : exn) : M A := fun w => (w, inl e).

Definition bind {A B} (m : M A) (k : A -> M B) : M B :=
  fun w => match m w with
           | (w', inr a) => k a w'
           | (w', inl e) => (w', inl e)
           end.

Notation "x <- m ;; k" := (bind m (fun x => k))
  (at level 100, m at next level, right associativity).
Notation "m ;;; k" := (bind m (fun _ => k))
  (at level 100, right associativity).

(** [try: m  except Exception: pass] *)
Definition try_pass (m : M unit) : M unit :=
  fun w => match m w with
           | (w', inl _) => (w', inr tt)
           | r => r
           end.

(** [try: m  except FileNotFoundError: pass] *)
Definition try_pass_not_found (m : M unit) : M unit :=
  fun w => match m w with
           | (w', inl FileNotFoundError) => (w', inr tt)
           | r => r
           end.

Definition emit (ev : event) : M unit :=
  fun w => (World (files w) (clock w) (refused w) (log w ++ [ev]), inr tt).

Definition set_files (fs : gmap string string) (w : world) : world :=
  World fs (clock w) (refused w) (log w).

(** One system call: the clock advances, and the answer tells whether the
    operating system refuses this call. *)
Definition tick (w : world) : world :=
  World (files w) (S (clock w)) (refused w) (log w).

Definition syscall : M bool :=
  fun w => (tick w, inr (bool_decide (clock w ∈ refused w))).

(** ** The file system *)

(** [p.exists()] *)
Definition path_exists (p : string) : M bool :=
  fun w => (w, inr (bool_decide (is_Some (files w !! p)))).

(** [p.unlink()]: a missing file is [FileNotFoundError]; otherwise the
    file goes, unless the operating system refuses. *)
Definition unlink (p : string) : M unit :=
  no <- syscall ;;
  fun w => match files w !! p with
           | None => (w, inl FileNotFoundError)
           | Some _ =>
               if (no : bool) then (w, inl OSError)
               else (set_files (delete p (files w)) w, inr tt)
           end.

(** [src.replace(dst)]: a rename that overwrites [dst]. *)
Definition replace (src dst : string) : M unit :=
  no <- syscall ;;
  fun w => match files w !! src with
           | None => (w, inl FileNotFoundError)
           | Some c =>
               if (no : bool) then (w, inl OSError)
               else (set_files (<[dst:=c]> (delete src (files w))) w, inr tt)
           end.

(** [p.with_suffix(p.suffix + ext)]: pathlib replaces the suffix of the
    last component by that same suffix followed by [ext], so the text of
    the path grows by [ext] at its end.  (pathlib raises [ValueError] on a
    path with an empty last component; the paths of this program all come
    from a directory listing.) *)
Definition with_added_suffix (p ext : string) : string := p +:+ ext.

(** The system call made last was refused. *)
Definition last_call_refused (w : world) : Prop := pred (clock w) ∈ refused w.

(** ** The external tool *)

(** The world once the command [args] has run and left the files [fs]. *)
Definition after_cmd (args : list string) (fs : gmap string string) (w : world)
  : world :=
  World fs (S (clock w)) (refused w) (log w ++ [ECmd args]).

Section Pipeline.

(** The behaviour of [subprocess.run(args, capture_output=True, text=True)]:
    given the command line, the time and the files, the files it leaves and
    either the reason the process could not be started or its result. *)
Variable magick :
  list string -> nat -> gmap string string ->
  gmap string string * (exn + completed_process).

Definition subprocess_run (args : list string) : M completed_process :=
  fun w => let '(fs, r) := magick args (clock w) (files w) in
           (after_cmd args fs w, r).

Definition run_cmd (args : list string) : M completed_process :=
  result <- subprocess_run args ;;
  if negb (returncode result =? 0)
  then raise (RuntimeError args (stdout result) (stderr result))
  else ret result.

Definition identify_args (im_cmd tif_path : string) : list string :=
  if String.eqb im_cmd "magick"
  then [im_cmd; "identify"; "-format"; "%n"; tif_path]
  else [im_cmd; tif_path; "-format"; "%n"; "info:"].

(** [out.stdout.strip() or out.stderr.strip()] *)
Definition query_text (out : completed_process) : string :=
  match Py.strip (stdout out) with
  | EmptyString => Py.strip (stderr out)
  | t => t
  end.

Definition identify_num_pages (im_cmd tif_path : string) : M Z :=
  out <- run_cmd (identify_args im_cmd tif_path) ;;
  let txt := query_text out in
  match Py.int txt with
  | Some n => ret n
  | None => ret 1
  end.

(** Steps 1 and 2 of [safe_replace] (lines 50 to 60): a stale backup is
    removed if possible, then the original is renamed to the backup; a
    missing original is not an error. *)
Definition stash_original (original : string) : M unit :=
  let backup := with_added_suffix original ".bak" in
  b <- path_exists backup ;;
  (if (b : bool) then try_pass (unlink backup) else ret tt) ;;;
  try_pass_not_found (replace original backup).

Definition safe_replace (original newfile : string) : M unit :=
  let backup := with_added_suffix original ".bak" in
  stash_original original ;;;
  replace newfile original ;;;
  try_pass (unlink backup).

(** [str(in_path) + "[i]"]: page [i] of a multi-page image. *)
Definition page (in_path : string) (i : string) : string :=
  in_path +:+ "[" +:+ i +:+ "]".

Definition combine_args (im_cmd mode in_path temp_combined : string) (n_pages : Z)
  : list string :=
  if 3 <=? n_pages then
    (if String.eqb mode "magick" then [im_cmd] else [im_cmd]) ++
    [page in_path "0"; page in_path "1"; page in_path "2";
     "-combine"; temp_combined]
  else
    (if String.eqb mode "magick" then [im_cmd] else [im_cmd]) ++
    [page in_path "0"; page in_path "1"; page in_path "1";
     "-combine"; temp_combined].

Definition combine_channels_if_needed (im_cmd mode in_path : string) : M string :=
  n_pages <- identify_num_pages im_cmd in_path ;;
  if n_pages <=? 1 then ret in_path
  else
    let temp_combined := with_added_suffix in_path ".rgb.tmp.tif" in
    b <- path_exists temp_combined ;;
    (if (b : bool) then try_pass (unlink temp_combined) else ret tt) ;;;
    run_cmd (combine_args im_cmd mode in_path temp_combined n_pages) ;;;
    ret temp_combined.

Definition lzw_compress_tiff_inplace (im_cmd mode in_path : string) : M string :=
  let temp_out := with_added_suffix in_path ".lzw.tmp.tif" in
  b <- path_exists temp_out ;;
  (if (b : bool) then try_pass (unlink temp_out) else ret tt) ;;;
  run_cmd ((if String.eqb mode "magick" then [im_cmd] else [im_cmd]) ++
           [in_path; "-compress"; "LZW"; temp_out]) ;;;
  ret temp_out.

(** [d.mkdir(exist_ok=True)]: directories are not tracked by the model and
    their creation is taken to succeed. *)
Definition mkdir (d : string) : M unit := ret tt.

Definition make_thumbnail (im_cmd mode in_path out_dir out_jpg : string) : M unit :=
  mkdir out_dir ;;;
  run_cmd ((if String.eqb mode "magick" then [im_cmd] else [im_cmd]) ++
           [in_path; "-thumbnail"; "256x256^"; "-gravity"; "center";
            "-extent"; "256x256"; out_jpg]) ;;;
  ret tt.

(** The local function [_exists] of [find_imagemagick_cmd]. *)
Definition _exists (cmd : string) : M bool :=
  fun w => match subprocess_run [cmd; "-version"] w with
           | (w', inr out) => (w', inr (returncode out =? 0))
           | (w', inl _) => (w', inr false)
           end.

Definition find_imagemagick_cmd : M (option (string * string)) :=
  m <- _exists "magick" ;;
  if (m : bool) then ret (Some ("magick", "magick"))
  else
    c <- _exists "convert" ;;
    if (c : bool) then
      fun w => match subprocess_run ["convert"; "-version"] w with
               | (w', inr out) =>
                   if Py.contains "ImageMagick" (stdout out +:+ stderr out)
                   then (w', inr (Some ("convert", "convert")))
                   else (w', inr None)
               | (w', inl _) => (w', inr None)
               end
    else ret None.

End Pipeline.

(** ** pathlib: suffix and stem of a file name *)

(** [name.rfind('.')] *)
Fixpoint rfind_dot (name : string) : option nat :=
  match name with
  | EmptyString => None
  | String c s' =>
      match rfind_dot s' with
      | Some i => Some (S i)
      | None => if Ascii.eqb c "." then Some 0%nat else None
      end
  end.

Definition suffix (name : string) : string :=
  match rfind_dot name with
  | Some i =>
      if ((0 <? i) && (i <? String.length name - 1))%nat
      then substring i (String.length name - i) name
      else ""
  | None => ""
  end.

Definition stem (name : string) : string :=
  match rfind_dot name with
  | Some i =>
      if ((0 <? i) && (i <? String.length name - 1))%nat
      then substring 0 i name
      else name
  | None => name
  end.

(** ** The natural sort key and [sorted] *)

(** An element of a sort key: [int(t)] or [t.lower()]. *)
Inductive token :=
  | TInt (n : Z)
  | TStr (s : string).

#[global] Instance token_eq_dec : EqDecision token.
Proof. solve_decision. Defined.

(** [re.findall(r"\d+|\D+", s)]: the maximal runs of digits and of
    non-digits, left to right. *)
Fixpoint findall_runs (s : string) : list string :=
  match s with
  | EmptyString => []
  | String c s' =>
      match findall_runs s' with
      | String d t :: rest =>
          if Bool.eqb (Py.isdigit c) (Py.isdigit d)
          then String c (String d t) :: rest
          else String c EmptyString :: String d t :: rest
      | _ => [String c EmptyString]
      end
  end.

(** The characters of a run are all digits, or none of them is. *)
Definition uniform_run (t : string) : Prop :=
  Forall (fun c => Py.isdigit c = true) (list_ascii_of_string t) \/
  Forall (fun c => Py.isdigit c = false) (list_ascii_of_string t).

(** The value of a string of digits, which is what [int(t)] returns when
    [t.isdigit()] holds (see [int_of_digit_string]). *)
Definition decimal (t : string) : Z :=
  fold_left (fun acc c => 10 * acc + Py.digit_val c) (list_ascii_of_string t) 0.

Definition natural_sort_key (s : string) : list token :=
  map (fun t => if Py.str_isdigit t then TInt (decimal t) else TStr (Py.lower t))
      (findall_runs s).

(** [x == y] on key elements: an [int] never equals a [str]. *)
Definition token_eqb (x y : token) : bool :=
  match x, y with
  | TInt a, TInt b => a =? b
  | TStr a, TStr b => String.eqb a b
  | _, _ => false
  end.

(** [x < y] on key elements: [TypeError] between an [int] and a [str]. *)
Definition token_lt (x y : token) : exn + bool :=
  match x, y with
  | TInt a, TInt b => inr (a <? b)
  | TStr a, TStr b => inr (String.ltb a b)
  | _, _ => inl TypeError
  end.

(** [a < b] on lists: the first position where the elements are not equal
    decides; without one, the shorter list is the smaller. *)
Fixpoint list_lt (a b : list token) : exn + bool :=
  match a, b with
  | [], [] => inr false
  | [], _ :: _ => inr true
  | _ :: _, [] => inr false
  | x :: a', y :: b' => if token_eqb x y then list_lt a' b' else token_lt x y
  end.

(** Two keys can be compared when [<] between them does not raise. *)
Definition comparable (a b : list token) : Prop :=
  exists r, list_lt a b = inr r.

#[global] Instance comparable_dec (a b : list token) : Decision (comparable a b).
Proof.
  unfold comparable. destruct (list_lt a b) as [e|r].
  - right. by intros [r Hr].
  - left. by exists r.
Defined.

(** [a] is not above [b]: [b < a] is defined and false. *)
Definition key_le (a b : list token) : Prop := list_lt b a = inr false.

Section Sorted.
Context {A : Type}.

(** [x] goes before the first element that is not below it, so that
    elements with equal keys keep their order. *)
Fixpoint insert_sorted (x : list token * A) (l : list (list token * A))
  : exn + list (list token * A) :=
  match l with
  | [] => inr [x]
  | y :: l' =>
      match list_lt (fst y) (fst x) with
      | inl e => inl e
      | inr true =>
          match insert_sorted x l' with
          | inl e => inl e
          | inr r => inr (y :: r)
          end
      | inr false => inr (x :: y :: l')
      end
  end.

Fixpoint sort_decorated (l : list (list token * A))
  : exn + list (list token * A) :=
  match l with
  | [] => inr []
  | x :: l' =>
      match sort_decorated l' with
      | inl e => inl e
      | inr s => insert_sorted x s
      end
  end.

(** [sorted(l, key=key)]: every key is computed once, the pairs are put
    in order with [<] on the keys alone, and the sort is stable.  Python
    runs another stable comparison sort; the result, and whether the sort
    raises, are fixed by the keys (see [sorted_ok], [sorted_stable] and
    [sorted_raises_iff]). *)
Definition sorted (key : A -> list token) (l : list A) : exn + list A :=
  match sort_decorated (map (fun a => (key a, a)) l) with
  | inl e => inl e
  | inr s => inr (map snd s)
  end.
End Sorted.

(** ** The batch *)

(** An entry of [root.iterdir()]. *)
Record dirent := Dirent {
  d_name : string;
  d_is_file : bool
}.

Definition tiff_exts : list string := [".tif"; ".tiff"].

(** The filter of lines 160 to 163.  The entries are those of the working
    directory, whose parent is never [thumbs_dir]. *)
Definition is_tiff (p : dirent) : bool :=
  d_is_file p && bool_decide (Py.lower (suffix (d_name p)) ∈ tiff_exts).

(** [lambda p: natural_sort_key(p.stem)] *)
Definition stem_key (p : string) : list token := natural_sort_key (stem p).

(** The names of the entries that pass the filter, in listing order. *)
Definition tiff_names (entries : list dirent) : list string :=
  d_name <$> filter (fun p => is_tiff p = true) entries.

(** [json.dump(manifest, f)] into [manifest.json]: the manifest is kept as
    the Python value, and the write is taken to succeed. *)
Definition write_manifest (basenames : list string) : M unit :=
  emit (EManifest basenames).

Section Batch.

Variable magick :
  list string -> nat -> gmap string string ->
  gmap string string * (exn + completed_process).

(** The body of the [try] block, lines 184 to 204. *)
Definition process_asset (im_cmd mode tiff : string) : M unit :=
  let base := stem tiff in
  combined_path <- combine_channels_if_needed magick im_cmd mode tiff ;;
  temp_lzw <- lzw_compress_tiff_inplace magick im_cmd mode combined_path ;;
  safe_replace tiff temp_lzw ;;;
  (if negb (String.eqb combined_path tiff) then
     b <- path_exists combined_path ;;
     if (b : bool) then try_pass (unlink combined_path) else ret tt
   else ret tt) ;;;
  let thumb_jpg := "thumbs/" +:+ base +:+ ".jpg" in
  make_thumbnail magick im_cmd mode tiff "thumbs" thumb_jpg.

(** One turn of the loop, lines 179 to 208. *)
Definition loop_body (im_cmd mode : string) (basenames : list string)
    (tiff : string) : M (list string) :=
  let base := stem tiff in
  let basenames := (basenames ++ [base])%list in
  emit (EAppend base) ;;;
  emit (ETry tiff) ;;;
  fun w => match process_asset im_cmd mode tiff w with
           | (w', inl e) => (emit (ECaught tiff e) ;;; ret basenames) w'
           | (w', inr _) => (w', inr basenames)
           end.

Fixpoint for_each (im_cmd mode : string) (basenames : list string)
    (order : list string) : M (list string) :=
  match order with
  | [] => ret basenames
  | tiff :: rest =>
      basenames <- loop_body im_cmd mode basenames tiff ;;
      for_each im_cmd mode basenames rest
  end.

(** [main]: the result is the status given to [sys.exit], or 0 when
    [main] returns; an exception that leaves [main] ends the process. *)
Definition main (entries : list dirent) : M Z :=
  mkdir "thumbs" ;;;
  found <- find_imagemagick_cmd magick ;;
  match found with
  | None => ret 1
  | Some (im_cmd, mode) =>
      let tiff_files := tiff_names entries in
      match tiff_files with
      | [] => write_manifest [] ;;; ret 0
      | _ =>
          match sorted stem_key tiff_files with
          | inl e => raise e
          | inr order =>
              basenames <- for_each im_cmd mode [] order ;;
              write_manifest basenames ;;;
              ret 0
          end
      end
  end.

(** The exit status of the process: an uncaught exception gives 1. *)
Definition exit_status (r : exn + Z) : Z :=
  match r with
  | inl _ => 1
  | inr code => code
  end.

End Batch.

(** The manifests written during a run. *)
Definition manifests (w : world) : list (list string) :=
  omap (fun ev => match ev with EManifest l => Some l | _ => None end) (log w).

(** The assets whose processing was attempted during a run. *)
Definition attempts (w : world) : list string :=
  omap (fun ev => match ev with ETry p => Some p | _ => None end) (log w).

(** The appends to [basenames] and the entries into the [try] block. *)
Definition progress (w : world) : list event :=
  omap (fun ev => match ev with
                  | EAppend _ | ETry _ => Some ev
                  | _ => None
                  end) (log w).

(** A computation that adds nothing but commands to the log. *)
Definition only_commands {A} (m : M A) : Prop :=
  forall w w' r, m w = (w', r) ->
    exists cmds, log w' = (log w ++ (ECmd <$> cmds))%list.

(** ** The external tool's [-combine]

    By ImageMagick's documentation the images that precede [-combine] give,
    in order, the red, the green and the blue channel of the image written
    to the path that follows it. *)
Record rgb := RGB {
  red : string;
  green : string;
  blue : string
}.

Definition combine_reading (args : list string) : option (rgb * string) :=
  match args with
  | [_; r; g; b; op; out] =>
      if String.eqb op "-combine" then Some (RGB r g b, out) else None
  | _ => None
  end.

(** ** Concrete tools and worlds used in the examples *)

(** A world with the given files, in which the operating system refuses
    the system calls made at the given times. *)
Definition world_of (fs : list (string * string)) (no : list nat) : world :=
  World (list_to_map fs) 0 no [].

(** A tool that leaves the files alone and always exits with status 0,
    printing [out] and [err]. *)
Definition tool_printing (out err : string)
  : list string -> nat -> gmap string string ->
    gmap string string * (exn + completed_process) :=
  fun _ _ fs => (fs, inr (CompletedProcess 0 out err)).

(** Two TIFF files whose stems start with a digit run and with a letter
    run. *)
Definition mixed_entries : list dirent :=
  [Dirent "1a.tif" true; Dirent "a1.tif" true].

Definition mixed_world : world :=
  world_of [("1a.tif", "stack"); ("a1.tif", "stack")] [].

(** Two TIFF files with the same stem under different extensions. *)
Definition twin_entries : list dirent :=
  [Dirent "a.tif" true; Dirent "a.tiff" true].

Definition twin_world : world :=
  world_of [("a.tif", "stack"); ("a.tiff", "stack")] [].

(** A working tool.  It exits with status 0 and prints a page count of 3;
    a command with [-combine], [-compress] or [-thumbnail] writes the file
    named by its last argument.  A command that mentions one of the names
    in [bad] fails and writes nothing. *)
Definition tool_failing_on (bad : list string)
  : list string -> nat -> gmap string string ->
    gmap string string * (exn + completed_process) :=
  fun args _ fs =>
    if existsb (fun a => existsb (fun b => Py.contains b a) bad) args
    then (fs, inr (CompletedProcess 1 "" "corrupt"))
    else if existsb (fun a => bool_decide (a ∈ ["-combine"; "-compress"; "-thumbnail"])) args
    then (<[List.last args "" := "image"]> fs, inr (CompletedProcess 0 "3" ""))
    else (fs, inr (CompletedProcess 0 "3" "")).

(** ** Views used by the further properties *)

(** A computation that changes no file outside [keep], adds nothing to the
    log and leaves the schedule of refusals alone. *)
Definition touches_only {A} (keep : list string) (m : M A) : Prop :=
  forall w w' r, m w = (w', r) ->
    (forall q, q ∉ keep -> files w' !! q = files w !! q) /\
    log w' = log w /\ refused w' = refused w.

(** The commands of a run, in order. *)
Definition commands (w : world) : list (list string) :=
  omap (fun ev => match ev with ECmd args => Some args | _ => None end) (log w).

(** The exceptions caught by the loop, with the asset of each. *)
Definition caught (w : world) : list (string * exn) :=
  omap (fun ev => match ev with ECaught p e => Some (p, e) | _ => None end) (log w).

(** The command line of [lzw_compress_tiff_inplace]. *)
Definition lzw_args (im_cmd mode in_path : string) : list string :=
  ((if String.eqb mode "magick" then [im_cmd] else [im_cmd]) ++
   [in_path; "-compress"; "LZW"; with_added_suffix in_path ".lzw.tmp.tif"])%list.

(** The command line of [make_thumbnail]. *)
Definition thumbnail_args (im_cmd mode in_path out_jpg : string) : list string :=
  ((if String.eqb mode "magick" then [im_cmd] else [im_cmd]) ++
   [in_path; "-thumbnail"; "256x256^"; "-gravity"; "center";
    "-extent"; "256x256"; out_jpg])%list.

(** The commands of one asset whose page count is [n], when every step
    succeeds, written out: the page-count query, the combine command when
    [n] is 2 or more, the compression of the asset or of the composite, and
    the thumbnail of the asset's own path. *)
Definition asset_plan (im_cmd tiff : string) (n : Z) : list (list string) :=
  let combined := if n <=? 1 then tiff else tiff +:+ ".rgb.tmp.tif" in
  ((if String.eqb im_cmd "magick"
    then [im_cmd; "identify"; "-format"; "%n"; tiff]
    else [im_cmd; tiff; "-format"; "%n"; "info:"]) ::
   (if n <=? 1 then []
    else [[im_cmd; tiff +:+ "[0]"; tiff +:+ "[1]";
           tiff +:+ (if 3 <=? n then "[2]" else "[1]");
           "-combine"; tiff +:+ ".rgb.tmp.tif"]]) ++
   [[im_cmd; combined; "-compress"; "LZW"; combined +:+ ".lzw.tmp.tif"];
    [im_cmd; tiff; "-thumbnail"; "256x256^"; "-gravity"; "center";
     "-extent"; "256x256"; "thumbs/" +:+ stem tiff +:+ ".jpg"]])%list.

(** Whether a key element is an [int]. *)
Definition is_int (x : token) : bool :=
  match x with TInt _ => true | TStr _ => false end.

(** The elements of a key are by turns [int] and [str], or [str] and
    [int]; [k] tells whether the first is an [int]. *)
Fixpoint alternating (k : bool) (key : list token) : Prop :=
  match key with
  | [] => True
  | x :: key' => is_int x = k /\ alternating (negb k) key'
  end.

(** The runs are by turns runs of digits and runs of non-digits; [k]
    tells whether the first is a run of digits. *)
Fixpoint alternating_runs (k : bool) (runs : list string) : Prop :=
  match runs with
  | [] => True
  | t :: rest =>
      Py.str_isdigit t = k /\ t <> "" /\ alternating_runs (negb k) rest
  end.

(** Whether a name starts with a digit; [None] for the empty name. *)
Definition starts_with_digit (s : string) : option bool :=
  match s with
  | EmptyString => None
  | String c _ => Some (Py.isdigit c)
  end.

(** * Facts *)

(** ** Python strings *)

Lemma lstrip_clean (s : string) :
  match Py.lstrip s with
  | String c _ => Py.isspace c = false
  | EmptyString => True
  end.
Proof.
  induction s as [|c s IH]; simpl; [done|].
  destruct (Py.isspace c) eqn:E; [exact IH | exact E].
Qed.

Lemma lstrip_rstrip_clean (s : string) :
  match s with String c _ => Py.isspace c = false | EmptyString => True end ->
  Py.lstrip (Py.rstrip s) = Py.rstrip s.
Proof.
  destruct s as [|c s]; simpl; [done|]. intros Hc.
  destruct (Py.rstrip s); rewrite ?Hc; simpl; by rewrite Hc.
Qed.

Lemma rstrip_cons (c : ascii) (s : string) :
  Py.rstrip (String c s) =
  match Py.rstrip s with
  | EmptyString => if Py.isspace c then EmptyString else String c EmptyString
  | t => String c t
  end.
Proof. reflexivity. Qed.

Lemma rstrip_idem (s : string) : Py.rstrip (Py.rstrip s) = Py.rstrip s.
Proof.
  induction s as [|c s IH]; [done|].
  rewrite rstrip_cons.
  destruct (Py.rstrip s) as [|d t].
  - destruct (Py.isspace c) eqn:Hc; [done|].
    by rewrite rstrip_cons, Hc.
  - by rewrite rstrip_cons, IH.
Qed.

Lemma strip_idem (s : string) : Py.strip (Py.strip s) = Py.strip s.
Proof.
  unfold Py.strip.
  rewrite (lstrip_rstrip_clean (Py.lstrip s) (lstrip_clean s)).
  apply rstrip_idem.
Qed.

(** [int] drops the surrounding white space itself. *)
Lemma int_strip (s : string) : Py.int (Py.strip s) = Py.int s.
Proof. unfold Py.int. by rewrite strip_idem. Qed.

Lemma digit_not_space (c : ascii) : Py.isdigit c = true -> Py.isspace c = false.
Proof. by destruct c as [[] [] [] [] [] [] [] []]. Qed.

Lemma rstrip_digits (t : string) : Py.all_digits t = true -> Py.rstrip t = t.
Proof.
  induction t as [|c t IH]; [done|]. simpl Py.all_digits.
  intros [Hc Ht]%andb_prop. rewrite rstrip_cons, (IH Ht).
  destruct t; [|done]. by rewrite (digit_not_space c Hc).
Qed.

Lemma strip_digits (t : string) : Py.all_digits t = true -> Py.strip t = t.
Proof.
  intros Ht. unfold Py.strip.
  assert (Py.lstrip t = t) as ->; [|by apply rstrip_digits].
  destruct t as [|c t]; [done|]. simpl in *.
  apply andb_prop in Ht as [Hc _]. by rewrite (digit_not_space c Hc).
Qed.

Lemma int_digits_all (t : string) (acc : Z) (seen : bool) :
  Py.all_digits t = true -> t <> "" \/ seen = true ->
  Py.int_digits acc seen t =
  Some (fold_left (fun a c => 10 * a + Py.digit_val c) (list_ascii_of_string t) acc).
Proof.
  revert acc seen. induction t as [|c t IH]; intros acc seen Ht Hne.
  - by destruct Hne as [Hne|Hne]; [|rewrite Hne].
  - simpl in *. apply andb_prop in Ht as [Hc Ht]. rewrite Hc.
    apply IH; [done|by right].
Qed.

(** On a string of digits [int] returns its decimal value: the key element
    [int(t)] of [natural_sort_key] never raises. *)
Lemma int_of_digit_string (t : string) :
  Py.str_isdigit t = true -> Py.int t = Some (decimal t).
Proof.
  destruct t as [|c t]; [done|]. unfold Py.str_isdigit. intros Ht.
  unfold Py.int. rewrite (strip_digits _ Ht).
  pose proof Ht as Ht'. simpl in Ht'. apply andb_prop in Ht' as [Hc _].
  assert (Hall : Py.int_digits 0 false (String c t) = Some (decimal (String c t))).
  { apply int_digits_all; [done|by left]. }
  destruct c as [[] [] [] [] [] [] [] []]; try discriminate Hc; exact Hall.
Qed.

(** ** The page inspector *)

Section InspectorFacts.

Variable magick :
  list string -> nat -> gmap string string ->
  gmap string string * (exn + completed_process).

Lemma run_cmd_ok (args : list string) (w : world) fs out :
  magick args (clock w) (files w) = (fs, inr out) ->
  returncode out = 0 ->
  run_cmd magick args w = (after_cmd args fs w, inr out).
Proof.
  intros Hm Hrc. unfold run_cmd, bind, subprocess_run.
  rewrite Hm, Hrc. reflexivity.
Qed.

Lemma run_cmd_failed (args : list string) (w : world) fs out :
  magick args (clock w) (files w) = (fs, inr out) ->
  returncode out <> 0 ->
  run_cmd magick args w =
  (after_cmd args fs w, inl (RuntimeError args (stdout out) (stderr out))).
Proof.
  intros Hm Hrc. unfold run_cmd, bind, subprocess_run.
  rewrite Hm. apply Z.eqb_neq in Hrc. rewrite Hrc. reflexivity.
Qed.

Lemma identify_num_pages_ok (im_cmd tif_path : string) (w : world) fs out :
  magick (identify_args im_cmd tif_path) (clock w) (files w) = (fs, inr out) ->
  returncode out = 0 ->
  identify_num_pages magick im_cmd tif_path w =
  (after_cmd (identify_args im_cmd tif_path) fs w,
   inr (default 1 (Py.int (query_text out)))).
Proof.
  intros Hm Hrc. unfold identify_num_pages, bind.
  rewrite (run_cmd_ok _ _ _ _ Hm Hrc).
  destruct (Py.int (query_text out)); reflexivity.
Qed.

Lemma query_text_blank (out : completed_process) :
  Py.strip (stdout out) = "" -> query_text out = Py.strip (stderr out).
Proof. unfold query_text. by intros ->. Qed.

Lemma query_text_stdout (out : completed_process) :
  Py.strip (stdout out) <> "" -> query_text out = Py.strip (stdout out).
Proof. unfold query_text. by destruct (Py.strip (stdout out)). Qed.

(** C5, as amended.  When the query exits with status 0, [identify_num_pages]
    does not raise: it returns the integer its output parses to, and exactly
    1 when the output does not parse as an integer.  The result is at least
    1 exactly when the output does not parse or parses to a count of at
    least 1. *)
Theorem identify_num_pages_value (im_cmd tif_path : string) (w : world) fs out :
  magick (identify_args im_cmd tif_path) (clock w) (files w) = (fs, inr out) ->
  returncode out = 0 ->
  exists w' n,
    identify_num_pages magick im_cmd tif_path w = (w', inr n) /\
    (Py.int (query_text out) = None -> n = 1) /\
    (forall k, Py.int (query_text out) = Some k -> n = k) /\
    (1 <= n <-> forall k, Py.int (query_text out) = Some k -> 1 <= k).
Proof.
  intros Hm Hrc. eexists _, _.
  split; [exact (identify_num_pages_ok _ _ _ _ _ Hm Hrc)|].
  destruct (Py.int (query_text out)) as [k|]; simpl.
  - split; [discriminate|]. split; [by intros k' [= <-]|]. split.
    + by intros H k' [= <-].
    + intros H. by apply H.
  - split; [done|]. split; [discriminate|]. split; [discriminate|lia].
Qed.

(** C9.  When the query exits with status 0 and its standard output is
    empty (or holds white space only), the count is parsed from its standard
    error; when the standard output holds anything else, the count is parsed
    from the standard output and the standard error is not consulted.  In
    both cases text that is not an integer gives 1. *)
Theorem identify_num_pages_streams (im_cmd tif_path : string) (w : world) fs out :
  magick (identify_args im_cmd tif_path) (clock w) (files w) = (fs, inr out) ->
  returncode out = 0 ->
  exists w',
    (stdout out = "" ->
     identify_num_pages magick im_cmd tif_path w =
     (w', inr (default 1 (Py.int (stderr out))))) /\
    (Py.strip (stdout out) = "" ->
     identify_num_pages magick im_cmd tif_path w =
     (w', inr (default 1 (Py.int (stderr out))))) /\
    (Py.strip (stdout out) <> "" ->
     identify_num_pages magick im_cmd tif_path w =
     (w', inr (default 1 (Py.int (stdout out))))) /\
    (forall n, Py.int (stdout out) = Some n ->
     identify_num_pages magick im_cmd tif_path w = (w', inr n)).
Proof.
  intros Hm Hrc. eexists.
  rewrite (identify_num_pages_ok _ _ _ _ _ Hm Hrc).
  assert (Hblank : Py.strip (stdout out) = "" ->
          default 1 (Py.int (query_text out)) = default 1 (Py.int (stderr out))).
  { intros H. by rewrite (query_text_blank _ H), int_strip. }
  assert (Hout : Py.strip (stdout out) <> "" ->
          default 1 (Py.int (query_text out)) = default 1 (Py.int (stdout out))).
  { intros H. by rewrite (query_text_stdout _ H), int_strip. }
  repeat split.
  - intros H. rewrite Hblank; [done|]. by rewrite H.
  - intros H. by rewrite Hblank.
  - intros H. by rewrite Hout.
  - intros n Hn. rewrite Hout; [by rewrite Hn|].
    intros H. rewrite <- int_strip, H in Hn. discriminate.
Qed.

End InspectorFacts.

(** The model is not vacuous: a query that prints [3] on standard error
    only. *)
Lemma identify_num_pages_streams_witness :
  exists w',
    identify_num_pages (tool_printing "" "3") "magick" "a.tif" (world_of [] [])
    = (w', inr 3).
Proof.
  destruct (identify_num_pages_streams (tool_printing "" "3") "magick" "a.tif"
              (world_of [] []) ∅ (CompletedProcess 0 "" "3") eq_refl eq_refl)
    as [w' [H _]].
  exists w'. exact (H eq_refl).
Defined.

Lemma identify_num_pages_value_witness :
  exists w' n,
    identify_num_pages (tool_printing "junk" "") "convert" "a.tif" (world_of [] [])
    = (w', inr n) /\ n = 1.
Proof.
  destruct (identify_num_pages_value (tool_printing "junk" "") "convert" "a.tif"
              (world_of [] []) ∅ (CompletedProcess 0 "junk" "") eq_refl eq_refl)
    as (w' & n & H & Hnone & _).
  exists w', n. split; [exact H|]. apply Hnone. reflexivity.
Defined.

(** C5 as stated fails: a query that exits with status 0 and prints [0]
    makes [identify_num_pages] return 0, which is below 1; and a query that
    exits with another status makes it raise. *)
Lemma identify_num_pages_below_one :
  ~ (forall magick im_cmd tif_path w, exists w' n,
       identify_num_pages magick im_cmd tif_path w = (w', inr n) /\ 1 <= n) /\
  snd (identify_num_pages (tool_printing "0" "") "magick" "a.tif" (world_of [] []))
    = inr 0 /\
  snd (identify_num_pages (tool_failing_on ["a.tif"]) "magick" "a.tif" (world_of [] []))
    = inl (RuntimeError ["magick"; "identify"; "-format"; "%n"; "a.tif"] "" "corrupt").
Proof.
  split; [|split; reflexivity].
  intros H.
  destruct (H (tool_printing "0" "") "magick" "a.tif" (world_of [] []))
    as (w' & n & Heq & Hn).
  vm_compute in Heq. injection Heq as _ <-. lia.
Qed.

(** ** The atomic publisher *)

Lemma length_app_string (s t : string) :
  String.length (s +:+ t) = (String.length s + String.length t)%nat.
Proof.
  induction s as [|c s IH]; [done|].
  change (S (String.length (s +:+ t)) = S (String.length s + String.length t)).
  by rewrite IH.
Qed.

Lemma with_added_suffix_neq (p ext : string) :
  ext <> "" -> with_added_suffix p ext <> p.
Proof.
  intros Hne Heq. apply (f_equal String.length) in Heq.
  unfold with_added_suffix in Heq. rewrite length_app_string in Heq.
  destruct ext; [done|]. simpl in Heq. lia.
Qed.

Lemma unlink_eq (p : string) (w : world) :
  unlink p w =
  match files w !! p with
  | None => (tick w, inl FileNotFoundError)
  | Some _ =>
      if bool_decide (clock w ∈ refused w) then (tick w, inl OSError)
      else (set_files (delete p (files w)) (tick w), inr tt)
  end.
Proof. reflexivity. Qed.

Lemma replace_eq (src dst : string) (w : world) :
  replace src dst w =
  match files w !! src with
  | None => (tick w, inl FileNotFoundError)
  | Some c =>
      if bool_decide (clock w ∈ refused w) then (tick w, inl OSError)
      else (set_files (<[dst:=c]> (delete src (files w))) (tick w), inr tt)
  end.
Proof. reflexivity. Qed.

(** A removal whose failure is swallowed never raises; it leaves the files
    as they were or without [p], and without [p] if the call was not
    refused. *)
Lemma try_unlink_spec (p : string) (w : world) :
  exists w', try_pass (unlink p) w = (w', inr tt) /\
    clock w' = S (clock w) /\ refused w' = refused w /\ log w' = log w /\
    (files w' = files w \/ files w' = delete p (files w)) /\
    (clock w ∉ refused w -> files w' !! p = None).
Proof.
  unfold try_pass. rewrite unlink_eq.
  destruct (files w !! p) eqn:Hp; [case_bool_decide|]; eexists;
    (split; [reflexivity|]); simpl; repeat split; auto.
  - done.
  - intros _. apply lookup_delete_eq.
Qed.

(** Steps 1 and 2: when they do not raise, the original path is free, the
    backup holds what the original held, and no other path has changed. *)
Lemma stash_original_spec (original : string) (w w2 : world) :
  stash_original original w = (w2, inr tt) ->
  files w2 !! original = None /\
  (is_Some (files w !! original) ->
   files w2 !! with_added_suffix original ".bak" = files w !! original) /\
  (forall q, q <> original -> q <> with_added_suffix original ".bak" ->
   files w2 !! q = files w !! q).
Proof.
  assert (Hbk : with_added_suffix original ".bak" <> original)
    by (by apply with_added_suffix_neq).
  unfold stash_original, bind, path_exists.
  set (backup := with_added_suffix original ".bak") in *.
  assert (Hstep1 : exists w1,
    (if bool_decide (is_Some (files w !! backup))
     then try_pass (unlink backup) else ret tt) w = (w1, inr tt) /\
    refused w1 = refused w /\
    (files w1 = files w \/ files w1 = delete backup (files w))).
  { case_bool_decide.
    - destruct (try_unlink_spec backup w) as (w1 & H1 & _ & Hr & _ & Hf & _).
      by exists w1.
    - exists w. by auto. }
  destruct Hstep1 as (w1 & -> & _ & Hf1).
  assert (Ho : files w1 !! original = files w !! original).
  { destruct Hf1 as [-> | ->]; [done|]. by rewrite lookup_delete_ne. }
  assert (Hq : forall q, q <> backup -> files w1 !! q = files w !! q).
  { intros q Hqb. destruct Hf1 as [-> | ->]; [done|]. by rewrite lookup_delete_ne. }
  unfold try_pass_not_found. rewrite replace_eq.
  destruct (files w1 !! original) as [c|] eqn:Hc.
  - case_bool_decide; [discriminate|].
    intros [= <-]. simpl. repeat split.
    + rewrite lookup_insert_ne by done. apply lookup_delete_eq.
    + intros _. rewrite lookup_insert_eq. by rewrite <- Ho.
    + intros q Hqo Hqb.
      rewrite lookup_insert_ne by done. rewrite lookup_delete_ne by done. auto.
  - intros [= <-]. simpl. repeat split.
    + done.
    + rewrite <- Ho. by intros [? ?].
    + intros q _ Hqb. auto.
Qed.

(** C1, as amended.  (1) An invocation that completes without raising, with
    a new-content path other than the backup path, leaves the original path
    holding the contents that were at the new-content path, and leaves no
    backup unless the final removal was refused.  (2) When the rename of the
    new content onto the original path fails, the invocation raises that
    error, the original path is absent, and the backup holds the original
    contents whenever the original existed.  (3) When that rename succeeds
    the invocation succeeds and the original path keeps the published
    contents, whatever happens to the removal of the backup. *)
Theorem safe_replace_outcome (original newfile : string) (w : world) :
  let backup := with_added_suffix original ".bak" in
  (forall w', safe_replace original newfile w = (w', inr tt) ->
     newfile <> backup ->
     is_Some (files w' !! original) /\
     files w' !! original = files w !! newfile /\
     (~ last_call_refused w' -> files w' !! backup = None)) /\
  (forall w2 w3 e,
     stash_original original w = (w2, inr tt) ->
     replace newfile original w2 = (w3, inl e) ->
     safe_replace original newfile w = (w3, inl e) /\
     files w3 !! original = None /\
     (is_Some (files w !! original) ->
      files w3 !! backup = files w !! original)) /\
  (forall w2 w3,
     stash_original original w = (w2, inr tt) ->
     replace newfile original w2 = (w3, inr tt) ->
     exists w4,
       safe_replace original newfile w = (w4, inr tt) /\
       is_Some (files w4 !! original) /\
       files w4 !! original = files w3 !! original).
Proof.
  intros backup.
  assert (Hbk : backup <> original) by (by apply with_added_suffix_neq).
  assert (Hpub : forall w2 w3,
    stash_original original w = (w2, inr tt) ->
    replace newfile original w2 = (w3, inr tt) ->
    exists w4,
      safe_replace original newfile w = (w4, inr tt) /\
      is_Some (files w4 !! original) /\
      files w4 !! original = files w3 !! original /\
      (newfile <> backup -> files w4 !! original = files w !! newfile) /\
      (~ last_call_refused w4 -> files w4 !! backup = None)).
  { intros w2 w3 Hst Hrep.
    destruct (stash_original_spec _ _ _ Hst) as (Ho2 & _ & Hq2).
    rewrite replace_eq in Hrep.
    destruct (files w2 !! newfile) as [c|] eqn:Hn; [|discriminate].
    case_bool_decide; [discriminate|]. injection Hrep as <-.
    assert (Hno : newfile <> original) by congruence.
    destruct (try_unlink_spec backup
                (set_files (<[original:=c]> (delete newfile (files w2))) (tick w2)))
      as (w4 & Hun & Hck & Hrf & _ & Hf4 & Hgone).
    exists w4.
    assert (H4o : files w4 !! original = Some c).
    { destruct Hf4 as [-> | ->]; simpl.
      - apply lookup_insert_eq.
      - rewrite lookup_delete_ne by done. apply lookup_insert_eq. }
    split; [|split; [|split; [|split]]].
    - unfold safe_replace, bind. rewrite Hst. rewrite replace_eq, Hn.
      rewrite bool_decide_eq_false_2 by done. exact Hun.
    - by rewrite H4o.
    - rewrite H4o. simpl. by rewrite lookup_insert_eq.
    - intros Hnb. rewrite H4o, <- Hn. by apply Hq2.
    - intros Hlast. apply Hgone. intros Hin. apply Hlast.
      unfold last_call_refused. by rewrite Hck, Hrf. }
  split; [|split].
  - intros w' Hsr Hnb. pose proof Hsr as Hsteps.
    unfold safe_replace, bind in Hsteps.
    destruct (stash_original original w) as [w2 [e|[]]] eqn:Hst; [discriminate|].
    destruct (replace newfile original w2) as [w3 [e|[]]] eqn:Hrep; [discriminate|].
    destruct (Hpub w2 w3 eq_refl Hrep) as (w4 & Hsr4 & Hsome & _ & Hnew & Hgone).
    rewrite Hsr in Hsr4. injection Hsr4 as <-. auto.
  - intros w2 w3 e Hst Hrep.
    destruct (stash_original_spec _ _ _ Hst) as (Ho2 & Hb2 & _).
    assert (Hf : files w3 = files w2).
    { rewrite replace_eq in Hrep.
      destruct (files w2 !! newfile); [case_bool_decide|];
        try discriminate; by injection Hrep as <- _. }
    split; [|split].
    + unfold safe_replace, bind. by rewrite Hst, Hrep.
    + by rewrite Hf.
    + rewrite Hf. exact Hb2.
  - intros w2 w3 Hst Hrep.
    destruct (Hpub w2 w3 Hst Hrep) as (w4 & ? & ? & ? & _). by exists w4.
Qed.

(** A publish in which nothing is refused: the original holds the new
    contents and the backup is gone. *)
Lemma safe_replace_outcome_witness :
  let w := world_of [("a.tif", "old"); ("a.tif.lzw.tmp.tif", "new")] [] in
  exists w',
    safe_replace "a.tif" "a.tif.lzw.tmp.tif" w = (w', inr tt) /\
    files w' !! "a.tif" = Some "new" /\
    files w' !! "a.tif.bak" = None.
Proof.
  intros w.
  destruct (safe_replace "a.tif" "a.tif.lzw.tmp.tif" w) as [w' r] eqn:E.
  pose proof E as E'. vm_compute in E'. injection E' as <- <-.
  eexists. split; [reflexivity|].
  destruct (safe_replace_outcome "a.tif" "a.tif.lzw.tmp.tif" w) as [H1 _].
  destruct (H1 _ E) as (_ & Hnew & Hgone); [done|].
  split.
  - rewrite Hnew. reflexivity.
  - apply Hgone. unfold last_call_refused. simpl. apply not_elem_of_nil.
Defined.

(** C1 as stated fails on two counts.  When the operating system refuses
    the final removal, the invocation completes without raising and the
    backup remains.  When the original did not exist and the rename of the
    new content fails, no backup is present. *)
Lemma safe_replace_backup_not_as_claimed :
  ~ (forall original newfile w w',
       safe_replace original newfile w = (w', inr tt) ->
       files w' !! original = files w !! newfile /\
       files w' !! with_added_suffix original ".bak" = None) /\
  ~ (forall original newfile w w2 w3 e,
       stash_original original w = (w2, inr tt) ->
       replace newfile original w2 = (w3, inl e) ->
       files w3 !! original = None /\
       is_Some (files w3 !! with_added_suffix original ".bak")).
Proof.
  split.
  - intros H.
    destruct (H "a.tif" "a.tif.lzw.tmp.tif"
                (world_of [("a.tif", "old"); ("a.tif.lzw.tmp.tif", "new")] [2%nat])
                _ eq_refl) as [_ Hb].
    vm_compute in Hb. discriminate.
  - intros H.
    destruct (H "a.tif" "a.tif.lzw.tmp.tif" (world_of [] []) _ _ _ eq_refl eq_refl)
      as [_ [c Hc]].
    vm_compute in Hc. discriminate.
Qed.

(** ** The channel compositor *)

Section CompositorFacts.

Variable magick :
  list string -> nat -> gmap string string ->
  gmap string string * (exn + completed_process).

Lemma run_cmd_log (args : list string) (w : world) :
  log (fst (run_cmd magick args w)) = (log w ++ [ECmd args])%list.
Proof.
  unfold run_cmd, bind, subprocess_run.
  destruct (magick args (clock w) (files w)) as [fs [e|out]]; [done|].
  by destruct (negb (returncode out =? 0)).
Qed.

Lemma identify_num_pages_world (im_cmd tif_path : string) (w w1 : world) r :
  identify_num_pages magick im_cmd tif_path w = (w1, r) ->
  files w1 = fst (magick (identify_args im_cmd tif_path) (clock w) (files w)) /\
  log w1 = (log w ++ [ECmd (identify_args im_cmd tif_path)])%list.
Proof.
  unfold identify_num_pages, run_cmd, bind, subprocess_run.
  destruct (magick _ (clock w) (files w)) as [fs [e|out]]; simpl.
  - by intros [= <- _].
  - destruct (negb (returncode out =? 0)); simpl.
    + by intros [= <- _].
    + destruct (Py.int (query_text out)); by intros [= <- _].
Qed.

Lemma combine_reading_args (im_cmd mode in_path tmp : string) (n : Z) :
  combine_reading (combine_args im_cmd mode in_path tmp n) =
  Some (RGB (page in_path "0") (page in_path "1")
            (page in_path (if 3 <=? n then "2" else "1")), tmp).
Proof.
  unfold combine_args. by destruct (3 <=? n), (String.eqb mode "magick").
Qed.

(** C4.  When the page count is at most 1, [combine_channels_if_needed]
    returns the asset's own path.  It runs no command besides the page-count
    query and performs no file operation: the files are the ones the query
    left. *)
Theorem combine_channels_single_page (im_cmd mode in_path : string)
    (w w1 : world) (n : Z) :
  identify_num_pages magick im_cmd in_path w = (w1, inr n) ->
  n <= 1 ->
  combine_channels_if_needed magick im_cmd mode in_path w = (w1, inr in_path) /\
  files w1 = fst (magick (identify_args im_cmd in_path) (clock w) (files w)) /\
  log w1 = (log w ++ [ECmd (identify_args im_cmd in_path)])%list.
Proof.
  intros Hid Hn. split; [|exact (identify_num_pages_world _ _ _ _ _ Hid)].
  unfold combine_channels_if_needed, bind. rewrite Hid.
  apply Z.leb_le in Hn. by rewrite Hn.
Qed.

(** The command line of the combine step, written out: the tool, then the
    asset's path followed by the page selectors, the operator and the
    output path. *)
Lemma combine_args_literal (im_cmd mode in_path tmp : string) (n : Z) :
  combine_args im_cmd mode in_path tmp n =
  [im_cmd; in_path +:+ "[0]"; in_path +:+ "[1]";
   in_path +:+ (if 3 <=? n then "[2]" else "[1]"); "-combine"; tmp].
Proof.
  unfold combine_args, page.
  by destruct (3 <=? n), (String.eqb mode "magick").
Qed.


End CompositorFacts.

Lemma combine_channels_single_page_witness :
  exists w1,
    combine_channels_if_needed (tool_printing "1" "") "magick" "magick" "a.tif"
      (world_of [("a.tif", "gray")] []) = (w1, inr "a.tif") /\
    files w1 = files (world_of [("a.tif", "gray")] []).
Proof.
  destruct (identify_num_pages (tool_printing "1" "") "magick" "a.tif"
              (world_of [("a.tif", "gray")] [])) as [w1 r] eqn:E.
  pose proof E as E'. vm_compute in E'. injection E' as <- <-.
  destruct (combine_channels_single_page (tool_printing "1" "") "magick" "magick"
              "a.tif" _ _ 1 E) as (H & Hf & _); [lia|].
  eexists. split; [exact H|exact Hf].
Defined.


(** ** The runs of a name *)

Lemma uniform_run_single (c : ascii) : uniform_run (String c "").
Proof.
  unfold uniform_run. simpl.
  destruct (Py.isdigit c) eqn:Hc; [left|right]; by repeat constructor.
Qed.

Lemma uniform_run_cons (c d : ascii) (t : string) :
  Py.isdigit c = Py.isdigit d -> uniform_run (String d t) ->
  uniform_run (String c (String d t)).
Proof.
  unfold uniform_run. simpl. intros Hcd [Hu|Hu]; [left|right];
    (constructor; [inversion Hu; congruence|done]).
Qed.

(** The runs are not empty, each is made of digits only or of non-digits
    only, and put end to end they give the name back. *)
Lemma findall_runs_spec (s : string) :
  Forall (fun t => t <> "" /\ uniform_run t) (findall_runs s) /\
  String.concat "" (findall_runs s) = s.
Proof.
  induction s as [|c s [Hruns Hcat]]; [by split|].
  simpl. destruct (findall_runs s) as [|[|d t] rest].
  - simpl in Hcat. subst s. split; [|done].
    constructor; [|constructor]. split; [done|apply uniform_run_single].
  - inversion Hruns as [|? ? [Hne _] _]. done.
  - inversion Hruns as [|? ? [_ Hu] Hrest]; subst.
    destruct (Bool.eqb (Py.isdigit c) (Py.isdigit d)) eqn:Hcd.
    + apply Bool.eqb_prop in Hcd. split.
      * constructor; [|done]. split; [done|by apply uniform_run_cons].
      * by destruct rest.
    + split.
      * constructor; [|by constructor].
        split; [done|apply uniform_run_single].
      * done.
Qed.

(** ** Comparing sort keys *)

Lemma token_eqb_eq (x y : token) : token_eqb x y = true <-> x = y.
Proof.
  destruct x, y; simpl; try (split; [discriminate|congruence]).
  - rewrite Z.eqb_eq. split; congruence.
  - rewrite String.eqb_eq. split; congruence.
Qed.

Lemma token_eqb_sym (x y : token) : token_eqb x y = token_eqb y x.
Proof.
  destruct x, y; simpl; try done.
  - apply Z.eqb_sym.
  - apply String.eqb_sym.
Qed.

Lemma string_ltb_leb (a b : string) : String.ltb a b = negb (String.leb b a).
Proof.
  unfold String.ltb, String.leb. rewrite (String.compare_antisym a b).
  by destruct (String.compare b a).
Qed.

(** On elements of one type, "not above" is transitive and antisymmetric. *)
Lemma token_le_trans (x y z : token) :
  token_lt y x = inr false -> token_lt z y = inr false ->
  token_lt z x = inr false.
Proof.
  destruct x, y, z; simpl; try discriminate.
  - intros [= H1] [= H2]. f_equal. apply Z.ltb_ge. apply Z.ltb_ge in H1, H2. lia.
  - rewrite !string_ltb_leb. intros [= H1] [= H2]. f_equal.
    apply negb_false_iff in H1, H2. apply negb_false_iff.
    apply Is_true_true. apply Is_true_true in H1, H2.
    exact (transitivity (R:=String.le) H1 H2).
Qed.

Lemma token_le_antisym (x y : token) :
  token_lt y x = inr false -> token_lt x y = inr false -> x = y.
Proof.
  destruct x, y; simpl; try discriminate.
  - intros [= H1] [= H2]. f_equal. apply Z.ltb_ge in H1, H2. lia.
  - rewrite !string_ltb_leb. intros [= H1] [= H2]. f_equal.
    apply negb_false_iff in H1, H2.
    by apply String.leb_antisym.
Qed.

Lemma token_lt_asym (x y : token) :
  token_lt x y = inr true -> token_lt y x = inr false.
Proof.
  destruct x, y; simpl; try discriminate.
  - intros [= H]. f_equal. apply Z.ltb_ge. apply Z.ltb_lt in H. lia.
  - intros [= H]. f_equal. unfold String.ltb in *.
    rewrite (String.compare_antisym s0 s). by destruct (String.compare s s0).
Qed.

Lemma token_lt_defined_sym (x y : token) e :
  token_lt x y = inl e -> token_lt y x = inl TypeError.
Proof. by destruct x, y. Qed.

Lemma list_lt_error (a b : list token) e : list_lt a b = inl e -> e = TypeError.
Proof.
  revert b. induction a as [|x a IH]; intros [|y b]; simpl; try discriminate.
  destruct (token_eqb x y); [apply IH|].
  destruct x, y; simpl; congruence.
Qed.

Lemma list_lt_defined_sym (a b : list token) e :
  list_lt a b = inl e -> list_lt b a = inl TypeError.
Proof.
  revert b. induction a as [|x a IH]; intros [|y b]; simpl; try discriminate.
  rewrite (token_eqb_sym y x).
  destruct (token_eqb x y); [apply IH|apply token_lt_defined_sym].
Qed.

Lemma comparable_sym (a b : list token) : comparable a b -> comparable b a.
Proof.
  intros [r Hr]. unfold comparable.
  destruct (list_lt b a) as [e|r'] eqn:E; [|eauto].
  apply list_lt_defined_sym in E. congruence.
Qed.

Lemma list_lt_asym (a b : list token) :
  list_lt a b = inr true -> key_le a b.
Proof.
  unfold key_le.
  revert b. induction a as [|x a IH]; intros [|y b]; simpl; try done.
  rewrite (token_eqb_sym y x).
  destruct (token_eqb x y); [apply IH|apply token_lt_asym].
Qed.

(** The heart of the matter: "not above" is transitive on keys, so a key
    that can be compared with its neighbours in a sorted list can be
    compared with every key of the list. *)
Lemma key_le_trans (a b c : list token) :
  key_le a b -> key_le b c -> key_le a c.
Proof.
  unfold key_le.
  revert b c. induction a as [|x a IH]; intros [|y b] [|z c]; simpl; try done.
  destruct (token_eqb y x) eqn:Eyx, (token_eqb z y) eqn:Ezy.
  - apply token_eqb_eq in Eyx as ->. rewrite Ezy. apply IH.
  - apply token_eqb_eq in Eyx as ->. rewrite Ezy. auto.
  - apply token_eqb_eq in Ezy as ->. rewrite Eyx. auto.
  - intros H1 H2.
    destruct (token_eqb z x) eqn:Ezx.
    + apply token_eqb_eq in Ezx as ->.
      pose proof (token_le_antisym _ _ H1 H2) as ->.
      assert (token_eqb y y = true) by (by apply token_eqb_eq). congruence.
    + exact (token_le_trans _ _ _ H1 H2).
Qed.

Lemma list_lt_irrefl (a : list token) : list_lt a a = inr false.
Proof.
  induction a as [|x a IH]; simpl; [done|].
  assert (token_eqb x x = true) as -> by (by apply token_eqb_eq). exact IH.
Qed.

Lemma comparable_refl (a : list token) : comparable a a.
Proof. exists false. apply list_lt_irrefl. Qed.

Lemma not_comparable (a b : list token) :
  ~ comparable a b <-> list_lt a b = inl TypeError.
Proof.
  unfold comparable. split.
  - intros H. destruct (list_lt a b) as [e|r] eqn:E.
    + by rewrite (list_lt_error _ _ _ E).
    + destruct H. eauto.
  - intros -> [r Hr]. discriminate.
Qed.

(** ** [sorted] *)

Section SortedFacts.
Context {A : Type}.
Implicit Types (x y : list token * A) (s l : list (list token * A)).

Local Abbreviation le_dec := (fun x y => key_le (fst x) (fst y)).

Lemma insert_sorted_perm x s r :
  insert_sorted x s = inr r -> Permutation r (x :: s).
Proof.
  revert r. induction s as [|y s IH]; simpl; intros r.
  - by intros [= <-].
  - destruct (list_lt (fst y) (fst x)) as [e|[]]; [done| |].
    + destruct (insert_sorted x s) as [e|r']; [done|].
      intros [= <-]. rewrite (IH r' eq_refl). apply perm_swap.
    + by intros [= <-].
Qed.

(** Inserting into a sorted list, when it does not raise, gives a sorted
    list, and the new key can be compared with every key of the list. *)
Lemma insert_sorted_ok x s r :
  StronglySorted le_dec s ->
  insert_sorted x s = inr r ->
  StronglySorted le_dec r /\ Forall (fun y => comparable (fst x) (fst y)) s.
Proof.
  intros Hs. revert r.
  induction Hs as [|y s Hs IH Hy]; simpl; intros r.
  - intros [= <-]. split; [|done].
    by repeat constructor.
  - destruct (list_lt (fst y) (fst x)) as [e|[]] eqn:Eyx; [done| |].
    + destruct (insert_sorted x s) as [e|r'] eqn:Eins; [done|].
      intros [= <-]. destruct (IH r' eq_refl) as [Hr' Hcmp].
      split.
      * constructor; [done|].
        rewrite (insert_sorted_perm _ _ _ Eins).
        constructor; [by apply list_lt_asym|done].
      * constructor; [|done]. apply comparable_sym. by exists true.
    + intros [= <-].
      assert (Hxs : Forall (le_dec x) s).
      { eapply Forall_impl; [exact Hy|]. intros z Hz. simpl in *.
        by apply key_le_trans with (fst y). }
      split.
      * constructor; [by constructor|]. by constructor.
      * constructor; [apply comparable_sym; by exists false|].
        eapply Forall_impl; [exact Hxs|]. intros z Hz. simpl in *.
        apply comparable_sym. by exists false.
Qed.

Lemma insert_sorted_total x s :
  Forall (fun y => comparable (fst y) (fst x)) s ->
  exists r, insert_sorted x s = inr r.
Proof.
  induction 1 as [|y s [b Hb] _ [r Hr]]; simpl; [eauto|].
  rewrite Hb, Hr. destruct b; eauto.
Qed.

Lemma sort_decorated_ok l s :
  sort_decorated l = inr s ->
  Permutation s l /\ StronglySorted le_dec s /\
  (forall x y, x ∈ l -> y ∈ l -> comparable (fst x) (fst y)).
Proof.
  revert s. induction l as [|x l IH]; simpl; intros s.
  - intros [= <-]. split; [done|]. split; [constructor|].
    intros x y Hx. by apply elem_of_nil in Hx.
  - destruct (sort_decorated l) as [e|s'] eqn:El; [done|].
    intros Hins. destruct (IH s' eq_refl) as (Hperm & Hsorted & Hcmp).
    destruct (insert_sorted_ok _ _ _ Hsorted Hins) as [Hs Hx].
    split; [|split; [done|]].
    + rewrite (insert_sorted_perm _ _ _ Hins). by constructor.
    + rewrite Hperm in Hx. rewrite Forall_forall in Hx.
      intros y z Hy Hz.
      apply elem_of_cons in Hy as [-> | Hy], Hz as [-> | Hz].
      * apply comparable_refl.
      * by apply Hx.
      * apply comparable_sym. by apply Hx.
      * by apply Hcmp.
Qed.

Lemma sort_decorated_total l :
  (forall x y, x ∈ l -> y ∈ l -> comparable (fst x) (fst y)) ->
  exists s, sort_decorated l = inr s.
Proof.
  induction l as [|x l IH]; simpl; intros Hcmp; [eauto|].
  destruct IH as [s Hs].
  { intros y z Hy Hz. apply Hcmp; by right. }
  rewrite Hs. apply insert_sorted_total.
  destruct (sort_decorated_ok _ _ Hs) as (Hperm & _ & _).
  rewrite Hperm. apply Forall_forall. intros y Hy.
  apply Hcmp; [by right|by left].
Qed.

Lemma insert_sorted_stable x s r (k : list token) :
  insert_sorted x s = inr r ->
  filter (fun y => fst y = k) r = filter (fun y => fst y = k) (x :: s).
Proof.
  revert r. induction s as [|y s IH]; simpl; intros r.
  - by intros [= <-].
  - destruct (list_lt (fst y) (fst x)) as [e|[]] eqn:Eyx; [done| |].
    + destruct (insert_sorted x s) as [e|r'] eqn:Eins; [done|].
      intros [= <-]. specialize (IH r' eq_refl).
      rewrite (filter_cons _ y r'), IH.
      rewrite (filter_cons _ x (y :: s)), (filter_cons _ y s), (filter_cons _ x s).
      destruct (decide (fst y = k)) as [Hy|Hy], (decide (fst x = k)) as [Hx|Hx];
        try done.
      rewrite Hy, Hx, list_lt_irrefl in Eyx. discriminate.
    + by intros [= <-].
Qed.

Lemma sort_decorated_stable l s (k : list token) :
  sort_decorated l = inr s ->
  filter (fun y => fst y = k) s = filter (fun y => fst y = k) l.
Proof.
  revert s. induction l as [|x l IH]; simpl; intros s.
  - by intros [= <-].
  - destruct (sort_decorated l) as [e|s'] eqn:El; [done|].
    intros Hins. rewrite (insert_sorted_stable _ _ _ k Hins).
    rewrite !filter_cons, (IH s' eq_refl). done.
Qed.

Lemma sort_decorated_error l e : sort_decorated l = inl e -> e = TypeError.
Proof.
  revert e. induction l as [|x l IH]; simpl; intros e; [done|].
  destruct (sort_decorated l) as [e'|s]; [intros [= <-]; by apply IH|].
  clear IH. revert e. induction s as [|y s IHs]; simpl; intros e; [done|].
  destruct (list_lt (fst y) (fst x)) as [e'|[]] eqn:E.
  - intros [= <-]. by apply list_lt_error in E.
  - destruct (insert_sorted x s) as [e'|r]; [|done].
    intros [= <-]. by apply IHs.
  - done.
Qed.

Variable key : A -> list token.

Lemma sorted_error (l : list A) e : sorted key l = inl e -> e = TypeError.
Proof.
  unfold sorted.
  destruct (sort_decorated _) as [e'|s] eqn:E; [|done].
  intros [= <-]. by apply sort_decorated_error in E.
Qed.

(** When [sorted] returns, the result is a rearrangement of the input in
    which no element is above a later one. *)
Lemma sorted_ok (l order : list A) :
  sorted key l = inr order ->
  Permutation order l /\
  StronglySorted (fun a b => key_le (key a) (key b)) order.
Proof.
  unfold sorted.
  destruct (sort_decorated _) as [e|s] eqn:E; [done|]. intros [= <-].
  destruct (sort_decorated_ok _ _ E) as (Hperm & Hsorted & _).
  assert (Hkeys : Forall (fun x => fst x = key (snd x)) s).
  { rewrite Hperm. apply Forall_forall. intros x Hx.
    apply list_elem_of_fmap in Hx as (a & -> & _). done. }
  split.
  - rewrite Hperm. rewrite map_map. simpl. by rewrite map_id.
  - clear E Hperm. induction Hsorted as [|x s Hs IH Hx]; simpl; constructor.
    + apply IH. by inversion Hkeys.
    + inversion Hkeys as [|? ? Hkx Hks]; subst.
      apply Forall_map. rewrite Forall_forall in *.
      intros y Hy. simpl. rewrite <- Hkx, <- (Hks y Hy). by apply Hx.
Qed.

(** The sort is stable: elements with one key keep their order. *)
Lemma sorted_stable (l order : list A) (k : list token) :
  sorted key l = inr order ->
  filter (fun a => key a = k) order = filter (fun a => key a = k) l.
Proof.
  unfold sorted.
  destruct (sort_decorated _) as [e|s] eqn:E; [done|]. intros [= <-].
  pose proof (sort_decorated_stable _ _ k E) as Hst.
  destruct (sort_decorated_ok _ _ E) as (Hperm & _ & _).
  assert (Hkeys : Forall (fun x => fst x = key (snd x)) s).
  { rewrite Hperm. apply Forall_forall. intros x Hx.
    apply list_elem_of_fmap in Hx as (a & -> & _). done. }
  assert (Hsnd : forall t : list (list token * A),
    Forall (fun x => fst x = key (snd x)) t ->
    filter (fun a => key a = k) (map snd t) =
    map snd (filter (fun y => fst y = k) t)).
  { induction 1 as [|x t Hx Ht IH]; [done|]. simpl.
    rewrite (filter_cons _ (snd x)), (filter_cons _ x t), IH, <- Hx.
    by destruct (decide (fst x = k)). }
  rewrite (Hsnd s Hkeys), Hst, <- Hsnd.
  - by rewrite map_map, map_id.
  - apply Forall_forall. intros x Hx.
    apply list_elem_of_fmap in Hx as (a & -> & _). done.
Qed.

Lemma classic_pairs (l : list A) :
  (forall a b, a ∈ l -> b ∈ l -> comparable (key a) (key b)) \/
  (exists a b, a ∈ l /\ b ∈ l /\ ~ comparable (key a) (key b)).
Proof.
  destruct (decide (Forall (fun a => Forall (fun b => comparable (key a) (key b)) l) l))
    as [H|H].
  - left. intros a b Ha Hb. rewrite Forall_forall in H.
    specialize (H a Ha). rewrite Forall_forall in H. by apply H.
  - right. apply not_Forall_Exists in H; [|apply _].
    apply Exists_exists in H as (a & Ha & H).
    apply not_Forall_Exists in H; [|apply _].
    apply Exists_exists in H as (b & Hb & H). eauto.
Qed.

(** [sorted] raises, and then it raises [TypeError], exactly when two of
    the keys cannot be compared. *)
Lemma sorted_raises_iff (l : list A) :
  sorted key l = inl TypeError <->
  exists a b, a ∈ l /\ b ∈ l /\ ~ comparable (key a) (key b).
Proof.
  unfold sorted. split.
  - destruct (sort_decorated _) as [e|s] eqn:E; [|done]. intros _.
    destruct (classic_pairs l) as [H|H]; [|exact H].
    destruct (sort_decorated_total (map (fun a => (key a, a)) l)) as [s Hs].
    { intros x y Hx Hy.
      apply list_elem_of_fmap in Hx as (a & -> & Ha).
      apply list_elem_of_fmap in Hy as (b & -> & Hb). by apply H. }
    congruence.
  - intros (a & b & Ha & Hb & Hab).
    destruct (sort_decorated _) as [e|s] eqn:E.
    + by rewrite (sort_decorated_error _ _ E).
    + destruct (sort_decorated_ok _ _ E) as (_ & _ & Hcmp).
      destruct Hab. apply (Hcmp (key a, a) (key b, b));
        apply list_elem_of_fmap; eauto.
Qed.

End SortedFacts.

(** ** What the steps of the pipeline write to the log *)

Section LogFacts.

Variable magick :
  list string -> nat -> gmap string string ->
  gmap string string * (exn + completed_process).

Lemma only_commands_ret {A} (a : A) : only_commands (ret a).
Proof. intros w w' r [= <- _]. exists []. by rewrite app_nil_r. Qed.

Lemma only_commands_raise {A} (e : exn) : only_commands (@raise A e).
Proof. intros w w' r [= <- _]. exists []. by rewrite app_nil_r. Qed.

Lemma only_commands_bind {A B} (m : M A) (k : A -> M B) :
  only_commands m -> (forall a, only_commands (k a)) ->
  only_commands (bind m k).
Proof.
  intros Hm Hk w w' r. unfold bind.
  destruct (m w) as [w1 [e|a]] eqn:E1.
  - intros [= <- _]. exact (Hm _ _ _ E1).
  - intros E2. destruct (Hm _ _ _ E1) as [c1 H1].
    destruct (Hk a _ _ _ E2) as [c2 H2].
    exists (c1 ++ c2)%list. by rewrite H2, H1, fmap_app, app_assoc.
Qed.

Lemma only_commands_try_pass (m : M unit) :
  only_commands m -> only_commands (try_pass m).
Proof.
  intros Hm w w' r. unfold try_pass.
  destruct (m w) as [w1 [e|[]]] eqn:E1; intros [= <- _]; exact (Hm _ _ _ E1).
Qed.

Lemma only_commands_if {A} (b : bool) (m1 m2 : M A) :
  only_commands m1 -> only_commands m2 -> only_commands (if b then m1 else m2).
Proof. by destruct b. Qed.

Lemma only_commands_path_exists (p : string) : only_commands (path_exists p).
Proof. intros w w' r [= <- _]. exists []. by rewrite app_nil_r. Qed.

Lemma only_commands_unlink (p : string) : only_commands (unlink p).
Proof.
  intros w w' r. rewrite unlink_eq.
  destruct (files w !! p); [case_bool_decide|]; intros [= <- _];
    exists []; by rewrite app_nil_r.
Qed.

Lemma only_commands_replace (src dst : string) : only_commands (replace src dst).
Proof.
  intros w w' r. rewrite replace_eq.
  destruct (files w !! src); [case_bool_decide|]; intros [= <- _];
    exists []; by rewrite app_nil_r.
Qed.

Lemma only_commands_subprocess_run (args : list string) :
  only_commands (subprocess_run magick args).
Proof.
  intros w w' r. unfold subprocess_run.
  destruct (magick args (clock w) (files w)) as [fs r']. intros [= <- _].
  by exists [args].
Qed.

Lemma only_commands_run_cmd (args : list string) :
  only_commands (run_cmd magick args).
Proof.
  apply only_commands_bind; [apply only_commands_subprocess_run|].
  intros out. apply only_commands_if;
    [apply only_commands_raise | apply only_commands_ret].
Qed.

Lemma only_commands_clear (p : string) :
  only_commands (b <- path_exists p ;;
                 (if (b : bool) then try_pass (unlink p) else ret tt)).
Proof.
  apply only_commands_bind; [apply only_commands_path_exists|].
  intros b. apply only_commands_if;
    [apply only_commands_try_pass, only_commands_unlink | apply only_commands_ret].
Qed.

Lemma only_commands_identify_num_pages (im_cmd tif_path : string) :
  only_commands (identify_num_pages magick im_cmd tif_path).
Proof.
  apply only_commands_bind; [apply only_commands_run_cmd|].
  intros out. cbv zeta. destruct (Py.int (query_text out)); apply only_commands_ret.
Qed.

Lemma only_commands_combine (im_cmd mode in_path : string) :
  only_commands (combine_channels_if_needed magick im_cmd mode in_path).
Proof.
  apply only_commands_bind; [apply only_commands_identify_num_pages|].
  intros n. apply only_commands_if; [apply only_commands_ret|].
  apply only_commands_bind; [apply only_commands_path_exists|]. intros b.
  apply only_commands_bind.
  { apply only_commands_if;
      [apply only_commands_try_pass, only_commands_unlink | apply only_commands_ret]. }
  intros _. apply only_commands_bind; [apply only_commands_run_cmd|].
  intros _. apply only_commands_ret.
Qed.

Lemma only_commands_lzw (im_cmd mode in_path : string) :
  only_commands (lzw_compress_tiff_inplace magick im_cmd mode in_path).
Proof.
  apply only_commands_bind; [apply only_commands_path_exists|]. intros b.
  apply only_commands_bind.
  { apply only_commands_if;
      [apply only_commands_try_pass, only_commands_unlink | apply only_commands_ret]. }
  intros _. apply only_commands_bind; [apply only_commands_run_cmd|].
  intros _. apply only_commands_ret.
Qed.

Lemma only_commands_safe_replace (original newfile : string) :
  only_commands (safe_replace original newfile).
Proof.
  apply only_commands_bind.
  { apply only_commands_bind; [apply only_commands_path_exists|]. intros b.
    apply only_commands_bind.
    { apply only_commands_if;
        [apply only_commands_try_pass, only_commands_unlink | apply only_commands_ret]. }
    intros _ w w' r. unfold try_pass_not_found.
    destruct (replace _ _ w) as [w1 [e|[]]] eqn:E1.
    - intros H. assert (w' = w1) as -> by (destruct e; by injection H as <-).
      exact (only_commands_replace _ _ _ _ _ E1).
    - intros [= <- _]. exact (only_commands_replace _ _ _ _ _ E1). }
  intros _. apply only_commands_bind; [apply only_commands_replace|].
  intros _. apply only_commands_try_pass, only_commands_unlink.
Qed.

Lemma only_commands_make_thumbnail (im_cmd mode in_path out_dir out_jpg : string) :
  only_commands (make_thumbnail magick im_cmd mode in_path out_dir out_jpg).
Proof.
  apply only_commands_bind; [apply only_commands_ret|].
  intros _. apply only_commands_bind; [apply only_commands_run_cmd|].
  intros _. apply only_commands_ret.
Qed.

Lemma only_commands_process_asset (im_cmd mode tiff : string) :
  only_commands (process_asset magick im_cmd mode tiff).
Proof.
  apply only_commands_bind; [apply only_commands_combine|]. intros combined.
  apply only_commands_bind; [apply only_commands_lzw|]. intros temp_lzw.
  apply only_commands_bind; [apply only_commands_safe_replace|]. intros _.
  apply only_commands_bind.
  { apply only_commands_if; [|apply only_commands_ret].
    apply only_commands_bind; [apply only_commands_path_exists|]. intros b.
    apply only_commands_if;
      [apply only_commands_try_pass, only_commands_unlink | apply only_commands_ret]. }
  intros _. apply only_commands_make_thumbnail.
Qed.

Lemma only_commands_cmd_exists (cmd : string) :
  only_commands (_exists magick cmd).
Proof.
  intros w w' r. unfold _exists.
  destruct (subprocess_run magick _ w) as [w1 [e|out]] eqn:E1;
    intros [= <- _]; exact (only_commands_subprocess_run _ _ _ _ E1).
Qed.

Lemma only_commands_find : only_commands (find_imagemagick_cmd magick).
Proof.
  apply only_commands_bind; [apply only_commands_cmd_exists|]. intros m.
  apply only_commands_if; [apply only_commands_ret|].
  apply only_commands_bind; [apply only_commands_cmd_exists|]. intros c.
  apply only_commands_if; [|apply only_commands_ret].
  intros w w' r.
  destruct (subprocess_run magick _ w) as [w1 [e|out]] eqn:E1.
  - intros [= <- _]. exact (only_commands_subprocess_run _ _ _ _ E1).
  - destruct (Py.contains _ _); intros [= <- _];
      exact (only_commands_subprocess_run _ _ _ _ E1).
Qed.

End LogFacts.

(** ** The batch *)

Lemma omap_commands {B} (f : event -> option B) (cmds : list (list string)) :
  (forall c, f (ECmd c) = None) -> omap f (ECmd <$> cmds) = [].
Proof.
  intros Hf. induction cmds as [|c cmds IH]; simpl; [done|].
  by rewrite Hf.
Qed.

Lemma only_commands_views {A} (m : M A) (w w' : world) r :
  only_commands m -> m w = (w', r) ->
  manifests w' = manifests w /\ attempts w' = attempts w /\
  progress w' = progress w.
Proof.
  intros Hm E. destruct (Hm _ _ _ E) as [cmds Hlog].
  unfold manifests, attempts, progress. rewrite Hlog, !omap_app.
  rewrite !omap_commands by done. by rewrite !app_nil_r.
Qed.

Section BatchFacts.

Variable magick :
  list string -> nat -> gmap string string ->
  gmap string string * (exn + completed_process).

(** One turn of the loop never raises.  The name is appended first, then the
    [try] block is entered; whatever the block does, the turn ends with the
    name in [basenames] and writes no manifest. *)
Lemma loop_body_spec (im_cmd mode : string) (basenames : list string)
    (tiff : string) (w : world) :
  exists w',
    loop_body magick im_cmd mode basenames tiff w =
      (w', inr (basenames ++ [stem tiff])%list) /\
    progress w' = (progress w ++ [EAppend (stem tiff); ETry tiff])%list /\
    attempts w' = (attempts w ++ [tiff])%list /\
    manifests w' = manifests w.
Proof.
  unfold loop_body, bind, emit. cbn [fst snd].
  match goal with
  | |- context [process_asset magick im_cmd mode tiff ?w1] =>
      destruct (process_asset magick im_cmd mode tiff w1) as [w2 [e|[]]] eqn:E;
      destruct (only_commands_views _ _ _ _
                  (only_commands_process_asset magick im_cmd mode tiff) E)
        as (Hm & Ha & Hp)
  end.
  - eexists. split; [reflexivity|].
    unfold progress, attempts, manifests in *. simpl in *.
    rewrite !omap_app in *. simpl in *.
    rewrite !app_nil_r in *. rewrite Hm, Ha, Hp.
    rewrite <- !app_assoc. done.
  - eexists. split; [reflexivity|].
    unfold progress, attempts, manifests in *. simpl in *.
    rewrite !omap_app in *. simpl in *.
    rewrite !app_nil_r in *. rewrite Hm, Ha, Hp.
    rewrite <- !app_assoc. done.
Qed.

(** The loop never raises.  It appends the name of every asset, in order,
    each before the asset's processing is attempted, and it writes no
    manifest. *)
Lemma for_each_spec (im_cmd mode : string) (order basenames : list string)
    (w : world) :
  exists w',
    for_each magick im_cmd mode basenames order w =
      (w', inr (basenames ++ (stem <$> order))%list) /\
    progress w' =
      (progress w ++ (order ≫= fun p => [EAppend (stem p); ETry p]))%list /\
    attempts w' = (attempts w ++ order)%list /\
    manifests w' = manifests w.
Proof.
  revert basenames w. induction order as [|tiff order IH]; intros basenames w.
  - exists w. simpl. by rewrite !app_nil_r.
  - destruct (loop_body_spec im_cmd mode basenames tiff w)
      as (w1 & E1 & Hp1 & Ha1 & Hm1).
    destruct (IH (basenames ++ [stem tiff])%list w1) as (w' & E & Hp & Ha & Hm).
    exists w'. simpl. unfold bind. rewrite E1, E.
    rewrite Hp, Ha, Hm, Hp1, Ha1, Hm1.
    rewrite <- !app_assoc. done.
Qed.

End BatchFacts.

Section MainFacts.

Variable magick :
  list string -> nat -> gmap string string ->
  gmap string string * (exn + completed_process).

Lemma cmd_exists_returns (cmd : string) (w : world) :
  exists w1 b, _exists magick cmd w = (w1, inr b).
Proof.
  unfold _exists. destruct (subprocess_run magick _ w) as [w1 [e|out]]; eauto.
Qed.

(** The search for the tool never raises. *)
Lemma find_imagemagick_cmd_returns (w : world) :
  exists w1 found, find_imagemagick_cmd magick w = (w1, inr found).
Proof.
  unfold find_imagemagick_cmd, bind.
  destruct (cmd_exists_returns "magick" w) as (w1 & [] & ->); [by eauto|].
  destruct (cmd_exists_returns "convert" w1) as (w2 & [] & ->); [|by eauto].
  destruct (subprocess_run magick _ w2) as [w3 [e|out]]; [by eauto|].
  destruct (Py.contains _ _); eauto.
Qed.

Lemma main_tool_missing (entries : list dirent) (w w1 : world) :
  find_imagemagick_cmd magick w = (w1, inr None) ->
  main magick entries w = (w1, inr 1) /\
  manifests w1 = manifests w /\ attempts w1 = attempts w.
Proof.
  intros Hfind. unfold main, bind, mkdir, ret. rewrite Hfind. split; [done|].
  destruct (only_commands_views _ _ _ _ (only_commands_find magick) Hfind)
    as (? & ? & _). done.
Qed.

Lemma main_sort_raises (entries : list dirent) (w w1 : world) im_cmd mode e :
  find_imagemagick_cmd magick w = (w1, inr (Some (im_cmd, mode))) ->
  sorted stem_key (tiff_names entries) = inl e ->
  main magick entries w = (w1, inl e) /\
  manifests w1 = manifests w /\ attempts w1 = attempts w.
Proof.
  intros Hfind Hsort. unfold main, bind, mkdir, ret. rewrite Hfind.
  destruct (only_commands_views _ _ _ _ (only_commands_find magick) Hfind)
    as (? & ? & _).
  destruct (tiff_names entries) as [|p l] eqn:El; [done|].
  by rewrite Hsort.
Qed.

(** When the tool is found and the sort returns, [main] returns 0 after
    one write of the manifest, which lists the stems in sorted order; every
    name was appended before its asset was attempted. *)
Lemma main_completes (entries : list dirent) (w w1 : world) im_cmd mode order :
  find_imagemagick_cmd magick w = (w1, inr (Some (im_cmd, mode))) ->
  sorted stem_key (tiff_names entries) = inr order ->
  exists w',
    main magick entries w = (w', inr 0) /\
    manifests w' = (manifests w ++ [stem <$> order])%list /\
    attempts w' = (attempts w ++ order)%list /\
    progress w' =
      (progress w ++ (order ≫= fun p => [EAppend (stem p); ETry p]))%list.
Proof.
  intros Hfind Hsort. unfold main, bind, mkdir, ret. rewrite Hfind.
  destruct (only_commands_views _ _ _ _ (only_commands_find magick) Hfind)
    as (Hm1 & Ha1 & Hp1).
  destruct (tiff_names entries) as [|p l] eqn:El.
  - injection Hsort as <-. eexists. split; [reflexivity|].
    unfold manifests, attempts, progress in *. simpl.
    rewrite !omap_app. simpl. rewrite Hm1, Ha1, Hp1. by rewrite !app_nil_r.
  - rewrite Hsort.
    destruct (for_each_spec magick im_cmd mode order [] w1)
      as (w2 & -> & Hp2 & Ha2 & Hm2).
    eexists. split; [reflexivity|].
    unfold manifests, attempts, progress in *. simpl.
    rewrite !omap_app. simpl.
    rewrite Hm2, Ha2, Hp2, Hm1, Ha1, Hp1. by rewrite !app_nil_r.
Qed.

Lemma sorted_defined_iff (l : list string) :
  (exists order, sorted stem_key l = inr order) <->
  (forall a b, a ∈ l -> b ∈ l -> comparable (stem_key a) (stem_key b)).
Proof.
  split.
  - intros [order Hs] a b Ha Hb.
    destruct (decide (comparable (stem_key a) (stem_key b))) as [|Hn]; [done|].
    assert (sorted stem_key l = inl TypeError) by (apply sorted_raises_iff; eauto).
    congruence.
  - intros Hall. destruct (sorted stem_key l) as [e|order] eqn:E; [|eauto].
    pose proof (sorted_error _ _ _ E) as ->.
    apply sorted_raises_iff in E as (a & b & Ha & Hb & Hn).
    destruct Hn. by apply Hall.
Qed.

(** C10.  The keys of the stems [1a] and [a1] cannot be compared: [<] raises
    [TypeError].  Whenever the tool is found and two of the listed TIFF
    files have stems whose keys cannot be compared, the sort raises
    [TypeError] and the exception leaves [main]: no asset is attempted and
    no manifest is written.  The sort returns exactly when every two keys
    can be compared. *)
Theorem sort_aborts_run :
  list_lt (natural_sort_key "1a") (natural_sort_key "a1") = inl TypeError /\
  (forall (entries : list dirent) (w w1 : world) im_cmd mode,
     find_imagemagick_cmd magick w = (w1, inr (Some (im_cmd, mode))) ->
     (exists a b, a ∈ tiff_names entries /\ b ∈ tiff_names entries /\
                  ~ comparable (stem_key a) (stem_key b)) ->
     main magick entries w = (w1, inl TypeError) /\
     attempts w1 = attempts w /\ manifests w1 = manifests w) /\
  (forall l : list string,
     (exists order, sorted stem_key l = inr order) <->
     (forall a b, a ∈ l -> b ∈ l -> comparable (stem_key a) (stem_key b))).
Proof.
  split; [reflexivity|]. split; [|exact sorted_defined_iff].
  intros entries w w1 im_cmd mode Hfind Hpair.
  apply sorted_raises_iff in Hpair.
  destruct (main_sort_raises entries w w1 im_cmd mode TypeError Hfind Hpair)
    as (? & ? & ?). done.
Qed.

(** The status of the process is 1 in two cases only: the tool is not
    found, or the sort raises. *)
Lemma exit_status_cases (entries : list dirent) (w : world) :
  exit_status (snd (main magick entries w)) = 1 <->
  snd (find_imagemagick_cmd magick w) = inr None \/
  ((exists found, snd (find_imagemagick_cmd magick w) = inr (Some found)) /\
   exists e, sorted stem_key (tiff_names entries) = inl e).
Proof.
  destruct (find_imagemagick_cmd_returns w) as (w1 & [[im_cmd mode]|] & Hfind);
    rewrite Hfind; simpl.
  - destruct (sorted stem_key (tiff_names entries)) as [e|order] eqn:Hsort.
    + destruct (main_sort_raises entries w w1 im_cmd mode e Hfind Hsort) as [-> _].
      simpl. split; [|done]. intros _. right. eauto.
    + destruct (main_completes entries w w1 im_cmd mode order Hfind Hsort)
        as (w2 & -> & _).
      simpl. split; [done|]. intros [|[_ [e ?]]]; done.
  - destruct (main_tool_missing entries w w1 Hfind) as [-> _].
    simpl. split; [by left|done].
Qed.

(** C8, as amended.  A run of [main] that returns 0 has written one
    manifest.  It lists the stem of every listed TIFF file once per file, in
    processing order: an identifier shared by several assets occurs as many
    times as there are assets bearing it, and no entry replaces another. *)
Theorem manifest_lists_every_asset (entries : list dirent) (w w' : world) :
  main magick entries w = (w', inr 0) ->
  exists order,
    manifests w' = (manifests w ++ [stem <$> order])%list /\
    Permutation order (tiff_names entries) /\
    (forall base,
       count_occ string_dec (stem <$> order) base =
       count_occ string_dec (stem <$> tiff_names entries) base).
Proof.
  intros Hmain.
  destruct (find_imagemagick_cmd_returns w) as (w1 & [[im_cmd mode]|] & Hfind).
  - destruct (sorted stem_key (tiff_names entries)) as [e|order] eqn:Hsort.
    + destruct (main_sort_raises entries w w1 im_cmd mode e Hfind Hsort) as [H _].
      congruence.
    + destruct (main_completes entries w w1 im_cmd mode order Hfind Hsort)
        as (w2 & H & Hm & _).
      rewrite Hmain in H. injection H as <-.
      destruct (sorted_ok _ _ _ Hsort) as [Hperm _].
      exists order. split; [done|]. split; [done|].
      intros base. apply Permutation_count_occ. by apply Permutation_map.
  - destruct (main_tool_missing entries w w1 Hfind) as [H _]. congruence.
Qed.

End MainFacts.

(** ** Concrete runs *)

(** The example of the specification: [img2], [img10], [img1]. *)
Example sorted_img :
  sorted natural_sort_key ["img2"; "img10"; "img1"] = inr ["img1"; "img2"; "img10"].
Proof. reflexivity. Qed.

(** C6, at the failing input.  The stems [1a] and [a1] are not put in any
    order: [sorted] raises [TypeError]. *)
Theorem sorted_mixed_raises :
  sorted natural_sort_key ["1a"; "a1"] = inl TypeError /\
  sorted stem_key (tiff_names mixed_entries) = inl TypeError.
Proof. split; reflexivity. Qed.

(** A directory without TIFF files: one manifest, with no names. *)
Example main_empty_directory :
  let r := main (tool_printing "1" "") [Dirent "notes.txt" true; Dirent "thumbs" false]
             (world_of [] []) in
  snd r = inr 0 /\ manifests (fst r) = [[]].
Proof. vm_compute. done. Qed.

(** Assets [a] and [b], where every command on [b] fails: the failure is
    caught, and the manifest still lists both. *)
Example main_second_asset_fails :
  let r := main (tool_failing_on ["b.tif"]) [Dirent "b.tif" true; Dirent "a.tif" true]
             (world_of [("a.tif", "stack"); ("b.tif", "bad")] []) in
  snd r = inr 0 /\ manifests (fst r) = [["a"; "b"]] /\
  attempts (fst r) = ["a.tif"; "b.tif"] /\
  (exists e, ECaught "b.tif" e ∈ log (fst r)) /\
  files (fst r) !! "a.tif" = Some "image".
Proof.
  vm_compute. repeat split; try done.
  eexists. repeat first [apply list_elem_of_here | apply list_elem_of_further].
Qed.

(** C2, at the failing input.  With the tool found and the files [1a.tif]
    and [a1.tif] in the directory, [main] ends with [TypeError] and no
    manifest has been written. *)
Theorem main_mixed_no_manifest :
  let r := main (tool_failing_on []) mixed_entries mixed_world in
  snd r = inl TypeError /\ manifests (fst r) = [] /\ attempts (fst r) = [].
Proof. vm_compute. done. Qed.

(** C7, at the failing input.  The tool is found, and yet the process ends
    with the status of a failure. *)
Theorem main_mixed_exit_status :
  snd (find_imagemagick_cmd (tool_failing_on []) mixed_world)
    = inr (Some ("magick", "magick")) /\
  exit_status (snd (main (tool_failing_on []) mixed_entries mixed_world)) = 1.
Proof. vm_compute. done. Qed.

Lemma sort_aborts_run_witness :
  exists w1,
    main (tool_failing_on []) mixed_entries mixed_world = (w1, inl TypeError) /\
    attempts w1 = [] /\ manifests w1 = [].
Proof.
  destruct (find_imagemagick_cmd (tool_failing_on []) mixed_world)
    as [w1 found] eqn:Hfind.
  pose proof Hfind as Hfind'. vm_compute in Hfind'. injection Hfind' as <- <-.
  destruct (sort_aborts_run (tool_failing_on [])) as (_ & Hrun & _).
  eexists. apply (Hrun mixed_entries _ _ _ _ Hfind).
  exists "1a.tif", "a1.tif". split; [|split].
  - apply list_elem_of_here.
  - apply list_elem_of_further, list_elem_of_here.
  - intros [r Hr]. vm_compute in Hr. discriminate.
Defined.

Lemma manifest_lists_every_asset_witness :
  exists w' order,
    main (tool_failing_on []) twin_entries twin_world = (w', inr 0) /\
    manifests w' = [stem <$> order] /\
    count_occ string_dec (stem <$> order) "a" = 2%nat.
Proof.
  destruct (main (tool_failing_on []) twin_entries twin_world)
    as [w' r] eqn:E.
  pose proof E as E'. vm_compute in E'. injection E' as <- <-.
  destruct (manifest_lists_every_asset (tool_failing_on []) twin_entries _ _ E)
    as (order & Hm & _ & Hc).
  eexists _, order. split; [reflexivity|]. split; [exact Hm|].
  rewrite Hc. reflexivity.
Defined.

(** C8 as stated fails: with [a.tif] and [a.tiff] in the directory the
    manifest is [a, a]; the identifier is there twice. *)
Lemma manifest_has_duplicate :
  ~ (forall magick entries w w' l,
       main magick entries w = (w', inr 0) -> l ∈ manifests w' -> NoDup l).
Proof.
  intros H.
  destruct (main (tool_failing_on []) twin_entries twin_world)
    as [w' r] eqn:E.
  pose proof E as E'. vm_compute in E'. injection E' as <- <-.
  assert (Hdup : NoDup ["a"; "a"]).
  { apply (H _ _ _ _ _ E). vm_compute. apply list_elem_of_here. }
  apply NoDup_cons in Hdup as [Hin _]. apply Hin, list_elem_of_here.
Qed.

(** * Further properties *)

(** ** What the file operations leave alone *)

Lemma touches_only_ret {A} (keep : list string) (a : A) : touches_only keep (ret a).
Proof. by intros w w' r [= <- _]. Qed.

Lemma touches_only_bind {A B} (keep : list string) (m : M A) (k : A -> M B) :
  touches_only keep m -> (forall a, touches_only keep (k a)) ->
  touches_only keep (bind m k).
Proof.
  intros Hm Hk w w' r. unfold bind.
  destruct (m w) as [w1 [e|a]] eqn:E1.
  - intros [= <- _]. exact (Hm _ _ _ E1).
  - intros E2. destruct (Hm _ _ _ E1) as (Hf1 & Hl1 & Hr1).
    destruct (Hk a _ _ _ E2) as (Hf2 & Hl2 & Hr2).
    split; [|split; congruence].
    intros q Hq. by rewrite Hf2, Hf1.
Qed.

Lemma touches_only_try_pass (keep : list string) (m : M unit) :
  touches_only keep m -> touches_only keep (try_pass m).
Proof.
  intros Hm w w' r. unfold try_pass.
  destruct (m w) as [w1 [e|[]]] eqn:E1; intros [= <- _]; exact (Hm _ _ _ E1).
Qed.

Lemma touches_only_try_pass_not_found (keep : list string) (m : M unit) :
  touches_only keep m -> touches_only keep (try_pass_not_found m).
Proof.
  intros Hm w w' r. unfold try_pass_not_found.
  destruct (m w) as [w1 [e|[]]] eqn:E1.
  - intros H. assert (w' = w1) as -> by (destruct e; by injection H as <-).
    exact (Hm _ _ _ E1).
  - intros [= <- _]. exact (Hm _ _ _ E1).
Qed.

Lemma touches_only_if {A} (keep : list string) (b : bool) (m1 m2 : M A) :
  touches_only keep m1 -> touches_only keep m2 ->
  touches_only keep (if b then m1 else m2).
Proof. by destruct b. Qed.

Lemma touches_only_path_exists (keep : list string) (p : string) :
  touches_only keep (path_exists p).
Proof. by intros w w' r [= <- _]. Qed.

Lemma touches_only_unlink (keep : list string) (p : string) :
  p ∈ keep -> touches_only keep (unlink p).
Proof.
  intros Hp w w' r. rewrite unlink_eq.
  destruct (files w !! p); [case_bool_decide|]; intros [= <- _]; simpl;
    (split; [|done]); intros q Hq; [done| |done].
  apply lookup_delete_ne. by intros ->.
Qed.

Lemma touches_only_replace (keep : list string) (src dst : string) :
  src ∈ keep -> dst ∈ keep -> touches_only keep (replace src dst).
Proof.
  intros Hs Hd w w' r. rewrite replace_eq.
  destruct (files w !! src); [case_bool_decide|]; intros [= <- _]; simpl;
    (split; [|done]); intros q Hq; [done| |done].
  rewrite lookup_insert_ne by (by intros ->).
  apply lookup_delete_ne. by intros ->.
Qed.

Lemma touches_only_clear (keep : list string) (p : string) :
  p ∈ keep ->
  touches_only keep (b <- path_exists p ;;
                     (if (b : bool) then try_pass (unlink p) else ret tt)).
Proof.
  intros Hp. apply touches_only_bind; [apply touches_only_path_exists|].
  intros b. apply touches_only_if;
    [by apply touches_only_try_pass, touches_only_unlink | apply touches_only_ret].
Qed.

Ltac solve_elem :=
  repeat first [apply list_elem_of_here | apply list_elem_of_further].

Lemma touches_only_safe_replace (original newfile : string) :
  touches_only [original; newfile; with_added_suffix original ".bak"]
    (safe_replace original newfile).
Proof.
  apply touches_only_bind.
  { apply touches_only_bind; [apply touches_only_path_exists|]. intros b.
    apply touches_only_bind.
    { apply touches_only_if; [|apply touches_only_ret].
      apply touches_only_try_pass, touches_only_unlink. solve_elem. }
    intros _. apply touches_only_try_pass_not_found, touches_only_replace;
      solve_elem. }
  intros _. apply touches_only_bind; [apply touches_only_replace; solve_elem|].
  intros _. apply touches_only_try_pass, touches_only_unlink. solve_elem.
Qed.

(** X1.  Whatever its outcome, [safe_replace] changes no path other than
    the original, the new file and the backup, and it writes nothing to the
    log. *)
Theorem safe_replace_frame (original newfile : string) (w : world) :
  let backup := with_added_suffix original ".bak" in
  let w' := fst (safe_replace original newfile w) in
  (forall q, q <> original -> q <> newfile -> q <> backup ->
     files w' !! q = files w !! q) /\
  log w' = log w.
Proof.
  intros backup w'. subst w'.
  destruct (safe_replace original newfile w) as [w' r] eqn:E. simpl.
  destruct (touches_only_safe_replace _ _ _ _ _ E) as (Hf & Hl & _).
  split; [|done].
  intros q Ho Hn Hb. apply Hf.
  rewrite !not_elem_of_cons. repeat split; try done. apply not_elem_of_nil.
Qed.

Lemma stash_original_failed (original : string) (w w2 : world) e :
  stash_original original w = (w2, inl e) ->
  files w2 !! original = files w !! original.
Proof.
  assert (Hbk : with_added_suffix original ".bak" <> original)
    by (by apply with_added_suffix_neq).
  unfold stash_original, bind, path_exists.
  set (backup := with_added_suffix original ".bak") in *.
  assert (Hstep1 : exists w1,
    (if bool_decide (is_Some (files w !! backup))
     then try_pass (unlink backup) else ret tt) w = (w1, inr tt) /\
    files w1 !! original = files w !! original).
  { case_bool_decide.
    - destruct (try_unlink_spec backup w) as (w1 & H1 & _ & _ & _ & Hf & _).
      exists w1. split; [done|].
      destruct Hf as [-> | ->]; [done|]. by rewrite lookup_delete_ne.
    - by exists w. }
  destruct Hstep1 as (w1 & -> & Ho).
  unfold try_pass_not_found. rewrite replace_eq.
  destruct (files w1 !! original) as [c|] eqn:Hc; [|discriminate].
  case_bool_decide; [|discriminate].
  intros [= <- _]. simpl. congruence.
Qed.

(** X2.  No loss on failure: when [safe_replace] raises, the contents the
    original path held before the call are still at the original path or at
    the backup path. *)
Theorem safe_replace_keeps_old_contents (original newfile : string)
    (w w' : world) (c : string) (e : exn) :
  files w !! original = Some c ->
  safe_replace original newfile w = (w', inl e) ->
  files w' !! original = Some c \/
  files w' !! with_added_suffix original ".bak" = Some c.
Proof.
  intros Hc. unfold safe_replace, bind.
  destruct (stash_original original w) as [w2 [e2|[]]] eqn:Hst.
  - intros [= <- _]. left. by rewrite (stash_original_failed _ _ _ _ Hst).
  - destruct (stash_original_spec _ _ _ Hst) as (_ & Hb & _).
    rewrite replace_eq.
    destruct (files w2 !! newfile) as [n|]; [case_bool_decide|].
    + intros [= <- _]. right. simpl. rewrite Hb by eauto. done.
    + intros H0.
      match type of H0 with
      | try_pass ?m ?x = _ =>
          destruct (try_unlink_spec (with_added_suffix original ".bak") x)
            as (w4 & Hun & _)
      end.
      rewrite Hun in H0. discriminate.
    + intros [= <- _]. right. simpl. rewrite Hb by eauto. done.
Qed.

Lemma safe_replace_keeps_old_contents_witness :
  exists w',
    safe_replace "a.tif" "a.tif.lzw.tmp.tif"
      (world_of [("a.tif", "old"); ("a.tif.lzw.tmp.tif", "new")] [1%nat])
    = (w', inl OSError) /\
    files w' !! "a.tif.bak" = Some "old".
Proof.
  destruct (safe_replace "a.tif" "a.tif.lzw.tmp.tif"
              (world_of [("a.tif", "old"); ("a.tif.lzw.tmp.tif", "new")] [1%nat]))
    as [w' r] eqn:E.
  pose proof E as E'. vm_compute in E'. injection E' as <- <-.
  eexists. split; [reflexivity|].
  assert (Hold : files (world_of [("a.tif", "old"); ("a.tif.lzw.tmp.tif", "new")]
                          [1%nat]) !! "a.tif" = Some "old") by reflexivity.
  destruct (safe_replace_keeps_old_contents "a.tif" "a.tif.lzw.tmp.tif" _ _ "old"
              OSError Hold E) as [H|H]; [|exact H].
  vm_compute in H. discriminate.
Defined.

(** X3.  The new file is consumed: after a call of [safe_replace] that
    does not raise, nothing is left at the path of the new file. *)
Theorem safe_replace_consumes_newfile (original newfile : string) (w w' : world) :
  safe_replace original newfile w = (w', inr tt) ->
  files w' !! newfile = None.
Proof.
  unfold safe_replace, bind.
  destruct (stash_original original w) as [w2 [e2|[]]] eqn:Hst; [discriminate|].
  destruct (stash_original_spec _ _ _ Hst) as (Ho & _ & _).
  rewrite replace_eq.
  destruct (files w2 !! newfile) as [n|] eqn:Hn; [|discriminate].
  case_bool_decide; [discriminate|].
  assert (Hno : newfile <> original) by congruence.
  intros H0.
  match type of H0 with
  | try_pass ?m ?x = _ =>
      destruct (try_unlink_spec (with_added_suffix original ".bak") x)
        as (w4 & Hun & _ & _ & _ & Hf & _)
  end.
  rewrite Hun in H0. injection H0 as <-.
  assert (Hgone : (<[original:=n]> (delete newfile (files w2)) : gmap string string)
                    !! newfile = None).
  { rewrite lookup_insert_ne by done. apply lookup_delete_eq. }
  destruct Hf as [-> | ->]; simpl; [done|].
  destruct (decide (with_added_suffix original ".bak" = newfile)) as [<-|Hne].
  - apply lookup_delete_eq.
  - by rewrite lookup_delete_ne.
Qed.

Lemma safe_replace_consumes_newfile_witness :
  exists w',
    safe_replace "a.tif" "a.tif.lzw.tmp.tif"
      (world_of [("a.tif", "old"); ("a.tif.lzw.tmp.tif", "new")] [])
    = (w', inr tt) /\
    files w' !! "a.tif.lzw.tmp.tif" = None.
Proof.
  destruct (safe_replace "a.tif" "a.tif.lzw.tmp.tif"
              (world_of [("a.tif", "old"); ("a.tif.lzw.tmp.tif", "new")] []))
    as [w' r] eqn:E.
  pose proof E as E'. vm_compute in E'. injection E' as <- <-.
  eexists. split; [reflexivity|].
  exact (safe_replace_consumes_newfile _ _ _ _ E).
Defined.

(** ** The temporary files of the pipeline *)

Lemma app_assoc_string (a b c : string) : (a +:+ b) +:+ c = a +:+ (b +:+ c).
Proof.
  induction a as [|x a IH]; [done|].
  change (String x ((a +:+ b) +:+ c) = String x (a +:+ (b +:+ c))).
  by rewrite IH.
Qed.

Lemma with_added_suffix_inj (p a b : string) :
  with_added_suffix p a = with_added_suffix p b -> a = b.
Proof. unfold with_added_suffix. apply (inj (String.app p)). Qed.

Section TempFacts.

Variable magick :
  list string -> nat -> gmap string string ->
  gmap string string * (exn + completed_process).

(** The removal of a stale temporary file: it never raises, touches no
    other path, and leaves the path free unless the removal is refused. *)
Lemma clear_stale_spec (p : string) (w : world) :
  exists w1,
    (b <- path_exists p ;;
     (if (b : bool) then try_pass (unlink p) else ret tt)) w = (w1, inr tt) /\
    (forall q, q <> p -> files w1 !! q = files w !! q) /\
    (clock w ∉ refused w -> files w1 !! p = None) /\
    log w1 = log w.
Proof.
  unfold bind, path_exists. case_bool_decide as Hp.
  - destruct (try_unlink_spec p w) as (w1 & H1 & _ & _ & Hl & Hf & Hgone).
    exists w1. split; [done|]. split; [|by split].
    intros q Hq. destruct Hf as [-> | ->]; [done|]. by rewrite lookup_delete_ne.
  - exists w. split; [done|]. split; [done|]. split; [|done].
    intros _. destruct (files w !! p) eqn:E; [|done]. destruct Hp. eauto.
Qed.

Lemma lzw_unfold (im_cmd mode in_path : string) (w : world) :
  let temp_out := with_added_suffix in_path ".lzw.tmp.tif" in
  exists w1,
    (forall q, q <> temp_out -> files w1 !! q = files w !! q) /\
    (clock w ∉ refused w -> files w1 !! temp_out = None) /\
    log w1 = log w /\
    lzw_compress_tiff_inplace magick im_cmd mode in_path w =
    match run_cmd magick (lzw_args im_cmd mode in_path) w1 with
    | (w2, inr _) => (w2, inr temp_out)
    | (w2, inl e) => (w2, inl e)
    end.
Proof.
  intros temp_out.
  destruct (clear_stale_spec temp_out w) as (w1 & Hclear & Hf & Hgone & Hl).
  exists w1. split; [done|]. split; [done|]. split; [done|].
  unfold lzw_compress_tiff_inplace. fold temp_out.
  unfold bind in *. unfold path_exists in *.
  destruct (bool_decide (is_Some (files w !! temp_out)));
    rewrite Hclear; unfold lzw_args; fold temp_out;
    by destruct (run_cmd magick _ w1) as [w2 [e|out]].
Qed.

(** X4.  [lzw_compress_tiff_inplace] starts the tool on a clean slate: when
    the command runs, the temporary output path is free unless the removal
    of a stale file was refused, and no other path has changed.  The result
    is the temporary path when the command succeeds, and the command's
    error otherwise. *)
Theorem lzw_compress_starts_clean (im_cmd mode in_path : string) (w : world) :
  let temp_out := with_added_suffix in_path ".lzw.tmp.tif" in
  exists w1,
    (forall q, q <> temp_out -> files w1 !! q = files w !! q) /\
    (clock w ∉ refused w -> files w1 !! temp_out = None) /\
    log w1 = log w /\
    lzw_compress_tiff_inplace magick im_cmd mode in_path w =
    match run_cmd magick (lzw_args im_cmd mode in_path) w1 with
    | (w2, inr _) => (w2, inr temp_out)
    | (w2, inl e) => (w2, inl e)
    end.
Proof. apply lzw_unfold. Qed.

Lemma combine_unfold (im_cmd mode in_path : string) (w w0 : world) (n : Z) :
  identify_num_pages magick im_cmd in_path w = (w0, inr n) ->
  2 <= n ->
  let temp := with_added_suffix in_path ".rgb.tmp.tif" in
  exists w1,
    (forall q, q <> temp -> files w1 !! q = files w0 !! q) /\
    (clock w0 ∉ refused w0 -> files w1 !! temp = None) /\
    log w1 = log w0 /\
    combine_channels_if_needed magick im_cmd mode in_path w =
    match run_cmd magick (combine_args im_cmd mode in_path temp n) w1 with
    | (w2, inr _) => (w2, inr temp)
    | (w2, inl e) => (w2, inl e)
    end.
Proof.
  intros Hid Hn temp.
  destruct (clear_stale_spec temp w0) as (w1 & Hclear & Hf & Hgone & Hl).
  exists w1. split; [done|]. split; [done|]. split; [done|].
  unfold combine_channels_if_needed. fold temp.
  unfold bind in *. rewrite Hid.
  assert (Hgt : (n <=? 1) = false) by (apply Z.leb_gt; lia). rewrite Hgt.
  unfold path_exists in *.
  destruct (bool_decide (is_Some (files w0 !! temp)));
    rewrite Hclear;
    by destruct (run_cmd magick _ w1) as [w2 [e|out]].
Qed.

(** X5.  When the page count is 2 or more, [combine_channels_if_needed]
    starts the combine command with the composite path free, unless the
    removal of a stale composite was refused, and with every other path as
    the page-count query left it. *)
Theorem combine_starts_clean (im_cmd mode in_path : string)
    (w w0 : world) (n : Z) :
  identify_num_pages magick im_cmd in_path w = (w0, inr n) ->
  2 <= n ->
  let temp := with_added_suffix in_path ".rgb.tmp.tif" in
  exists w1,
    (forall q, q <> temp -> files w1 !! q = files w0 !! q) /\
    (clock w0 ∉ refused w0 -> files w1 !! temp = None) /\
    combine_channels_if_needed magick im_cmd mode in_path w =
    match run_cmd magick (combine_args im_cmd mode in_path temp n) w1 with
    | (w2, inr _) => (w2, inr temp)
    | (w2, inl e) => (w2, inl e)
    end.
Proof.
  intros Hid Hn temp.
  destruct (combine_unfold im_cmd mode in_path w w0 n Hid Hn)
    as (w1 & ? & ? & _ & ?).
  by exists w1.
Qed.

Lemma combine_result_path (im_cmd mode in_path : string) (w w1 : world) c :
  combine_channels_if_needed magick im_cmd mode in_path w = (w1, inr c) ->
  c = in_path \/ c = with_added_suffix in_path ".rgb.tmp.tif".
Proof.
  destruct (identify_num_pages magick im_cmd in_path w) as [w0 [e|n]] eqn:Hid.
  - unfold combine_channels_if_needed, bind. rewrite Hid. discriminate.
  - destruct (Z.le_gt_cases n 1) as [Hle|Hgt].
    + destruct (combine_channels_single_page magick im_cmd mode in_path w w0 n Hid Hle)
        as [-> _]. intros [= <-]. by left.
    + destruct (combine_unfold im_cmd mode in_path w w0 n Hid)
        as (w2 & _ & _ & _ & ->); [lia|].
      destruct (run_cmd magick _ w2) as [w3 [e|out]]; [discriminate|].
      intros [= _ <-]. by right.
Qed.

Lemma lzw_result_path (im_cmd mode in_path : string) (w w1 : world) t :
  lzw_compress_tiff_inplace magick im_cmd mode in_path w = (w1, inr t) ->
  t = with_added_suffix in_path ".lzw.tmp.tif".
Proof.
  destruct (lzw_unfold im_cmd mode in_path w) as (w2 & _ & _ & _ & ->).
  destruct (run_cmd magick _ w2) as [w3 [e|out]]; [discriminate|].
  by intros [= _ <-].
Qed.

(** X6.  The paths handed to [safe_replace] never collide: the compressed
    file that [lzw_compress_tiff_inplace] returns for the output of
    [combine_channels_if_needed] is neither the asset, nor the asset's
    backup, nor the composite; and the composite is not the backup. *)
Theorem pipeline_paths_distinct (im_cmd mode tiff : string)
    (w w1 w2 : world) (c t : string) :
  combine_channels_if_needed magick im_cmd mode tiff w = (w1, inr c) ->
  lzw_compress_tiff_inplace magick im_cmd mode c w1 = (w2, inr t) ->
  t <> tiff /\ t <> with_added_suffix tiff ".bak" /\ t <> c /\
  c <> with_added_suffix tiff ".bak".
Proof.
  intros Hc Ht. apply lzw_result_path in Ht as ->.
  apply combine_result_path in Hc as [-> | ->].
  - split; [by apply with_added_suffix_neq|].
    split; [by intros ?%with_added_suffix_inj|].
    split; [by apply with_added_suffix_neq|].
    apply not_eq_sym. by apply with_added_suffix_neq.
  - unfold with_added_suffix. rewrite app_assoc_string.
    split; [by apply (with_added_suffix_neq tiff)|].
    split; [by intros ?%(inj (String.app tiff))|].
    split.
    + rewrite <- app_assoc_string.
      by apply (with_added_suffix_neq (tiff +:+ ".rgb.tmp.tif")).
    + by intros ?%(inj (String.app tiff)).
Qed.

End TempFacts.

Lemma lzw_compress_starts_clean_witness :
  exists w1,
    files w1 !! "a.tif.lzw.tmp.tif" = None /\
    files w1 !! "a.tif" = Some "stack".
Proof.
  destruct (lzw_compress_starts_clean (tool_failing_on []) "magick" "magick" "a.tif"
              (world_of [("a.tif", "stack"); ("a.tif.lzw.tmp.tif", "stale")] []))
    as (w1 & Hf & Hgone & _).
  exists w1. split.
  - apply Hgone. simpl. apply not_elem_of_nil.
  - rewrite Hf; [reflexivity|done].
Defined.

Lemma combine_starts_clean_witness :
  exists w1, files w1 !! "a.tif.rgb.tmp.tif" = None.
Proof.
  destruct (identify_num_pages (tool_failing_on []) "magick" "a.tif"
              (world_of [("a.tif", "stack"); ("a.tif.rgb.tmp.tif", "stale")] []))
    as [w0 r] eqn:E.
  pose proof E as E'. vm_compute in E'. injection E' as <- <-.
  destruct (combine_starts_clean (tool_failing_on []) "magick" "magick" "a.tif"
              _ _ 3 E) as (w1 & _ & Hgone & _); [lia|].
  exists w1. apply Hgone. simpl. apply not_elem_of_nil.
Defined.

Lemma pipeline_paths_distinct_witness :
  "a.tif.rgb.tmp.tif.lzw.tmp.tif" <> "a.tif.bak".
Proof.
  destruct (combine_channels_if_needed (tool_failing_on []) "magick" "magick" "a.tif"
              (world_of [("a.tif", "stack")] [])) as [w1 rc] eqn:Ec.
  pose proof Ec as Ec'. vm_compute in Ec'. injection Ec' as <- <-.
  destruct (lzw_compress_tiff_inplace (tool_failing_on []) "magick" "magick"
              "a.tif.rgb.tmp.tif" (fst (combine_channels_if_needed (tool_failing_on [])
                 "magick" "magick" "a.tif" (world_of [("a.tif", "stack")] []))))
    as [w2 rt] eqn:Et.
  pose proof Et as Et'. vm_compute in Et'. injection Et' as <- <-.
  rewrite Ec in Et. simpl in Et.
  destruct (pipeline_paths_distinct (tool_failing_on []) "magick" "magick" "a.tif"
              _ _ _ _ _ Ec Et) as (_ & H & _).
  exact H.
Defined.

(** ** The commands of one asset *)

Lemma commands_snoc (w w' : world) (args : list string) :
  log w' = (log w ++ [ECmd args])%list ->
  commands w' = (commands w ++ [args])%list.
Proof. intros H. unfold commands. by rewrite H, omap_app. Qed.

Lemma commands_same (w w' : world) : log w' = log w -> commands w' = commands w.
Proof. intros H. unfold commands. by rewrite H. Qed.

Section PlanFacts.

Variable magick :
  list string -> nat -> gmap string string ->
  gmap string string * (exn + completed_process).

Lemma run_cmd_commands (args : list string) (w w' : world) r :
  run_cmd magick args w = (w', r) ->
  commands w' = (commands w ++ [args])%list.
Proof.
  intros E. apply commands_snoc.
  pose proof (run_cmd_log magick args w) as H. by rewrite E in H.
Qed.

Lemma safe_replace_commands (original newfile : string) (w w' : world) r :
  safe_replace original newfile w = (w', r) -> commands w' = commands w.
Proof.
  intros E. apply commands_same.
  by destruct (touches_only_safe_replace _ _ _ _ _ E) as (_ & ? & _).
Qed.

(** The removal of the composite after the publish never raises and runs
    no command. *)
Lemma cleanup_spec (combined tiff : string) (w : world) :
  exists w',
    (if negb (String.eqb combined tiff) then
       b <- path_exists combined ;;
       if (b : bool) then try_pass (unlink combined) else ret tt
     else ret tt) w = (w', inr tt) /\
    commands w' = commands w.
Proof.
  destruct (negb (String.eqb combined tiff)).
  - destruct (clear_stale_spec combined w) as (w' & H & _ & _ & Hl).
    exists w'. split; [done|]. by apply commands_same.
  - by exists w.
Qed.

(** X7.  The commands of one asset follow the plan fixed by the page
    count that the query returns.  When the query raises, [process_asset]
    raises the same error and the query is the only command.  When the
    query returns [n], the commands are the query and at least one more,
    and they form a prefix of the plan for [n]: the combine command exactly
    when [n] is 2 or more, then the compression of the image so obtained,
    then the thumbnail of the asset's own path.  A step that fails ends the
    asset with no later command; when [process_asset] does not raise, the
    whole plan has run. *)
Theorem process_asset_follows_plan (im_cmd mode tiff : string) (w : world) :
  match identify_num_pages magick im_cmd tiff w with
  | (w0, inl e) =>
      process_asset magick im_cmd mode tiff w = (w0, inl e) /\
      commands w0 =
        (commands w ++
         [if String.eqb im_cmd "magick"
          then [im_cmd; "identify"; "-format"; "%n"; tiff]
          else [im_cmd; tiff; "-format"; "%n"; "info:"]])%list
  | (w0, inr n) =>
      exists cmds,
        commands (fst (process_asset magick im_cmd mode tiff w)) =
          (commands w ++ cmds)%list /\
        cmds `prefix_of` asset_plan im_cmd tiff n /\
        (2 <= length cmds)%nat /\
        (snd (process_asset magick im_cmd mode tiff w) = inr tt ->
         cmds = asset_plan im_cmd tiff n)
  end.
Proof.
  destruct (identify_num_pages magick im_cmd tiff w) as [w0 [e|n]] eqn:Hid.
  { assert (Hc : combine_channels_if_needed magick im_cmd mode tiff w = (w0, inl e)).
    { unfold combine_channels_if_needed, bind. by rewrite Hid. }
    split.
    - unfold process_asset, bind. by rewrite Hc.
    - apply (commands_snoc w w0 (identify_args im_cmd tiff)).
      by destruct (identify_num_pages_world magick _ _ _ _ _ Hid). }
  assert (Hc0 : commands w0 = (commands w ++ [identify_args im_cmd tiff])%list).
  { apply commands_snoc.
    by destruct (identify_num_pages_world magick _ _ _ _ _ Hid). }
  set (thumb := "thumbs/" +:+ stem tiff +:+ ".jpg").
  set (combined := if n <=? 1 then tiff else with_added_suffix tiff ".rgb.tmp.tif").
  set (head := (identify_args im_cmd tiff ::
          (if n <=? 1 then []
           else [combine_args im_cmd mode tiff
                   (with_added_suffix tiff ".rgb.tmp.tif") n]))%list).
  assert (Hplan : asset_plan im_cmd tiff n =
                  (head ++ [lzw_args im_cmd mode combined;
                            thumbnail_args im_cmd mode tiff thumb])%list).
  { unfold asset_plan, head, combined, lzw_args, thumbnail_args, identify_args,
      with_added_suffix.
    rewrite combine_args_literal.
    by destruct (n <=? 1), (String.eqb mode "magick"). }
  assert (Hhead : (1 <= length head)%nat) by (unfold head; simpl; lia).
  (* the compositor: the path it returns and the commands so far *)
  assert (Hcomb : exists w1 rc,
    combine_channels_if_needed magick im_cmd mode tiff w = (w1, rc) /\
    commands w1 = (commands w ++ head)%list /\
    (rc = inr combined \/ ((exists e, rc = inl e) /\ length head = 2%nat))).
  { destruct (Z.le_gt_cases n 1) as [Hle|Hgt].
    - destruct (combine_channels_single_page magick im_cmd mode tiff w w0 n Hid Hle)
        as [Hres _].
      exists w0, (inr tiff). split; [done|].
      apply Z.leb_le in Hle. unfold head, combined. rewrite Hle. auto.
    - destruct (combine_unfold magick im_cmd mode tiff w w0 n Hid)
        as (w2 & _ & _ & Hlog2 & Hres); [lia|].
      pose proof (commands_same _ _ Hlog2) as Hl2.
      assert ((n <=? 1) = false) as Hn by (apply Z.leb_gt; lia).
      unfold head, combined. rewrite Hn.
      destruct (run_cmd magick _ w2) as [w3 [e|out]] eqn:Erun;
        pose proof (run_cmd_commands _ _ _ _ Erun) as Hc3;
        rewrite Hl2, Hc0, <- app_assoc in Hc3;
        eexists _, _; (split; [exact Hres|]); (split; [exact Hc3|]).
      + right. split; [eauto|done].
      + by left. }
  destruct Hcomb as (w1 & rc & Ec & Hc1 & Hrc).
  destruct (process_asset magick im_cmd mode tiff w) as [w' r] eqn:Ep.
  cbn [fst snd]. revert Ep. unfold process_asset. fold thumb.
  unfold bind at 1. rewrite Ec.
  destruct Hrc as [-> | [[e ->] Hlen]].
  2:{ intros [= <- <-]. exists head. split; [done|].
      split; [rewrite Hplan; by eexists|]. split; [lia|discriminate]. }
  unfold bind at 1.
  destruct (lzw_unfold magick im_cmd mode combined w1)
    as (w2 & _ & _ & Hl2 & ->).
  destruct (run_cmd magick (lzw_args im_cmd mode combined) w2)
    as [w3 [e|out]] eqn:Elzw;
    pose proof (run_cmd_commands _ _ _ _ Elzw) as Hc3;
    rewrite (commands_same _ _ Hl2), Hc1, <- app_assoc in Hc3.
  { intros [= <- <-]. exists (head ++ [lzw_args im_cmd mode combined])%list.
    split; [done|]. split; [|split; [rewrite length_app; simpl; lia|discriminate]].
    rewrite Hplan. exists [thumbnail_args im_cmd mode tiff thumb].
    by rewrite <- app_assoc. }
  unfold bind at 1.
  destruct (safe_replace tiff (with_added_suffix combined ".lzw.tmp.tif") w3)
    as [w4 [e|[]]] eqn:Esr;
    pose proof (safe_replace_commands _ _ _ _ _ Esr) as Hc4.
  { intros [= <- <-]. exists (head ++ [lzw_args im_cmd mode combined])%list.
    split; [congruence|]. split; [|split; [rewrite length_app; simpl; lia|discriminate]].
    rewrite Hplan. exists [thumbnail_args im_cmd mode tiff thumb].
    by rewrite <- app_assoc. }
  unfold bind at 1.
  destruct (cleanup_spec combined tiff w4) as (w5 & -> & Hc5).
  unfold make_thumbnail, mkdir, bind, ret.
  destruct (run_cmd magick _ w5) as [w6 [e|out6]] eqn:Eth;
    pose proof (run_cmd_commands _ _ _ _ Eth) as Hc6;
    intros [= <- <-]; exists (asset_plan im_cmd tiff n);
    (split; [rewrite Hc6, Hc5, Hc4, Hc3, Hplan; by rewrite <- !app_assoc|]);
    (split; [reflexivity|]);
    (split; [rewrite Hplan, length_app; simpl; lia|done]).
Qed.

End PlanFacts.

Lemma process_asset_follows_plan_witness :
  exists w',
    process_asset (tool_failing_on []) "magick" "magick" "a.tif"
      (world_of [("a.tif", "stack")] []) = (w', inr tt) /\
    commands w' =
      [["magick"; "identify"; "-format"; "%n"; "a.tif"];
       ["magick"; "a.tif[0]"; "a.tif[1]"; "a.tif[2]"; "-combine";
        "a.tif.rgb.tmp.tif"];
       ["magick"; "a.tif.rgb.tmp.tif"; "-compress"; "LZW";
        "a.tif.rgb.tmp.tif.lzw.tmp.tif"];
       ["magick"; "a.tif"; "-thumbnail"; "256x256^"; "-gravity"; "center";
        "-extent"; "256x256"; "thumbs/a.jpg"]].
Proof.
  pose proof (process_asset_follows_plan (tool_failing_on []) "magick" "magick"
                "a.tif" (world_of [("a.tif", "stack")] [])) as H.
  destruct (identify_num_pages (tool_failing_on []) "magick" "a.tif"
              (world_of [("a.tif", "stack")] [])) as [w0 r0] eqn:Eid.
  pose proof Eid as Eid'. vm_compute in Eid'. injection Eid' as <- <-.
  destruct (process_asset (tool_failing_on []) "magick" "magick" "a.tif"
              (world_of [("a.tif", "stack")] [])) as [w' r] eqn:E.
  pose proof E as E'. vm_compute in E'. injection E' as <- <-.
  destruct H as (cmds & Hc & _ & _ & Hall).
  eexists. split; [reflexivity|].
  cbn [fst snd] in Hc, Hall. rewrite Hc, (Hall eq_refl). reflexivity.
Defined.

(** ** The search for the tool *)

Section FindFacts.

Variable magick :
  list string -> nat -> gmap string string ->
  gmap string string * (exn + completed_process).

Lemma subprocess_run_commands (args : list string) (w w' : world) r :
  subprocess_run magick args w = (w', r) ->
  commands w' = (commands w ++ [args])%list.
Proof.
  unfold subprocess_run. destruct (magick args (clock w) (files w)) as [fs r'].
  intros [= <- _]. by apply commands_snoc.
Qed.

Lemma _exists_spec (cmd : string) (w : world) :
  exists w',
    _exists magick cmd w =
      (w', inr (match snd (magick [cmd; "-version"] (clock w) (files w)) with
                | inr out => returncode out =? 0
                | inl _ => false
                end)) /\
    commands w' = (commands w ++ [[cmd; "-version"]])%list.
Proof.
  unfold _exists.
  destruct (subprocess_run magick [cmd; "-version"] w) as [w' r] eqn:E.
  pose proof (subprocess_run_commands _ _ _ _ E) as Hc.
  unfold subprocess_run in E.
  destruct (magick [cmd; "-version"] (clock w) (files w)) as [fs r'].
  injection E as <- <-. destruct r'; eauto.
Qed.

Lemma _exists_world (cmd : string) (w : world) :
  _exists magick cmd w =
  (after_cmd [cmd; "-version"]
     (fst (magick [cmd; "-version"] (clock w) (files w))) w,
   inr (match snd (magick [cmd; "-version"] (clock w) (files w)) with
        | inr out => returncode out =? 0
        | inl _ => false
        end)).
Proof.
  unfold _exists, subprocess_run.
  by destruct (magick [cmd; "-version"] (clock w) (files w)) as [fs [e|out]].
Qed.

(** X8.  [find_imagemagick_cmd] never raises, even when a probe cannot be
    started, and what it runs and returns is fixed by the answers of the
    probes.  When [magick -version] exits with status 0 it is the only
    command and the result is [magick].  Otherwise [convert -version] is
    run; when that does not exit with status 0 no further command runs and
    nothing is found; when it does, [convert -version] is run once more,
    and the result is [convert] if that run prints ImageMagick and nothing
    otherwise. *)
Theorem find_imagemagick_cmd_shape (w : world) :
  let probe1 := magick ["magick"; "-version"] (clock w) (files w) in
  let ok1 := match snd probe1 with
             | inr out => returncode out =? 0
             | inl _ => false
             end in
  let probe2 := magick ["convert"; "-version"] (S (clock w)) (fst probe1) in
  let ok2 := match snd probe2 with
             | inr out => returncode out =? 0
             | inl _ => false
             end in
  let probe3 := magick ["convert"; "-version"] (S (S (clock w))) (fst probe2) in
  exists w',
    find_imagemagick_cmd magick w =
      (w', inr (if ok1 then Some ("magick", "magick")
                else if ok2 then
                  match snd probe3 with
                  | inr out =>
                      if Py.contains "ImageMagick" (stdout out +:+ stderr out)
                      then Some ("convert", "convert") else None
                  | inl _ => None
                  end
                else None)) /\
    commands w' =
      (commands w ++
       (if ok1 then [["magick"; "-version"]]
        else if ok2 then [["magick"; "-version"]; ["convert"; "-version"];
                          ["convert"; "-version"]]
        else [["magick"; "-version"]; ["convert"; "-version"]]))%list.
Proof.
  intros probe1 ok1 probe2 ok2 probe3.
  unfold find_imagemagick_cmd, bind.
  rewrite (_exists_world "magick" w). fold probe1. fold ok1.
  set (w1 := after_cmd ["magick"; "-version"] (fst probe1) w).
  assert (Hc1 : commands w1 = (commands w ++ [["magick"; "-version"]])%list)
    by (by apply commands_snoc).
  destruct ok1.
  { exists w1. by split. }
  rewrite (_exists_world "convert" w1).
  change (clock w1) with (S (clock w)). change (files w1) with (fst probe1).
  fold probe2. fold ok2.
  set (w2 := after_cmd ["convert"; "-version"] (fst probe2) w1).
  assert (Hc2 : commands w2 =
    (commands w ++ [["magick"; "-version"]; ["convert"; "-version"]])%list).
  { unfold w2. rewrite (commands_snoc w1 _ ["convert"; "-version"]) by done.
    by rewrite Hc1, <- app_assoc. }
  destruct ok2.
  2:{ exists w2. by split. }
  unfold subprocess_run.
  change (clock w2) with (S (S (clock w))). change (files w2) with (fst probe2).
  fold probe3.
  destruct probe3 as [fs3 r3] eqn:E3. simpl snd.
  exists (after_cmd ["convert"; "-version"] fs3 w2). split.
  - destruct r3 as [e|out]; [done|]. by destruct (Py.contains _ _).
  - rewrite (commands_snoc w2 _ ["convert"; "-version"]) by done.
    by rewrite Hc2, <- app_assoc.
Qed.

Lemma find_magick_iff (w : world) :
  snd (find_imagemagick_cmd magick w) = inr (Some ("magick", "magick")) <->
  exists fs out,
    magick ["magick"; "-version"] (clock w) (files w) = (fs, inr out) /\
    returncode out = 0.
Proof.
  unfold find_imagemagick_cmd, bind.
  destruct (_exists_spec "magick" w) as (w1 & -> & _).
  destruct (magick ["magick"; "-version"] (clock w) (files w)) as [fs [e|out]] eqn:Em;
    simpl.
  - split; [|by intros (? & ? & ? & _)].
    destruct (_exists_spec "convert" w1) as (w2 & -> & _).
    destruct (match snd (magick _ (clock w1) (files w1)) with
              | inr out => returncode out =? 0 | inl _ => false end); [|done].
    destruct (subprocess_run magick _ w2) as [w3 [e'|out']]; [done|].
    by destruct (Py.contains _ _).
  - destruct (returncode out =? 0) eqn:Hrc.
    + split; [|done]. intros _. exists fs, out. split; [done|]. by apply Z.eqb_eq.
    + split.
      * destruct (_exists_spec "convert" w1) as (w2 & -> & _).
        destruct (match snd (magick _ (clock w1) (files w1)) with
                  | inr out => returncode out =? 0 | inl _ => false end); [|done].
        destruct (subprocess_run magick _ w2) as [w3 [e'|out']]; [done|].
        by destruct (Py.contains _ _).
      * intros (fs' & out' & [= <- <-] & H0). apply Z.eqb_neq in Hrc. done.
Qed.

(** X9.  [magick] is preferred: [find_imagemagick_cmd] returns [magick]
    exactly when the probe [magick -version], run first, exits with status
    0; what [convert] would answer plays no part. *)
Theorem find_prefers_magick (w : world) :
  snd (find_imagemagick_cmd magick w) = inr (Some ("magick", "magick")) <->
  exists fs out,
    magick ["magick"; "-version"] (clock w) (files w) = (fs, inr out) /\
    returncode out = 0.
Proof. apply find_magick_iff. Qed.


(** X11.  [identify_num_pages] raises exactly when the query cannot be
    started or exits with a status other than 0; the text the query prints
    never makes it raise.  In the second case the error is the
    [RuntimeError] that carries the query's command line and output. *)
Theorem identify_num_pages_raises_iff (im_cmd tif_path : string) (w : world) :
  let answer := snd (magick (identify_args im_cmd tif_path) (clock w) (files w)) in
  ((exists e, snd (identify_num_pages magick im_cmd tif_path w) = inl e) <->
   ((exists e, answer = inl e) \/
    (exists out, answer = inr out /\ returncode out <> 0))) /\
  (forall out, answer = inr out -> returncode out <> 0 ->
     snd (identify_num_pages magick im_cmd tif_path w) =
     inl (RuntimeError (identify_args im_cmd tif_path) (stdout out) (stderr out))).
Proof.
  intros answer. subst answer.
  destruct (magick (identify_args im_cmd tif_path) (clock w) (files w))
    as [fs [e|out]] eqn:Em; simpl.
  - split; [|discriminate]. split; [eauto|]. intros _. exists e.
    unfold identify_num_pages, run_cmd, bind, subprocess_run. by rewrite Em.
  - destruct (Z.eq_dec (returncode out) 0) as [Hrc|Hrc].
    + rewrite (identify_num_pages_ok magick _ _ _ _ _ Em Hrc). simpl.
      split; [|by intros ? [= <-]].
      split; [by intros [? ?]|]. intros [[? ?]|(? & [= <-] & ?)]; done.
    + assert (Hraise : snd (identify_num_pages magick im_cmd tif_path w) =
        inl (RuntimeError (identify_args im_cmd tif_path) (stdout out) (stderr out))).
      { unfold identify_num_pages, bind.
        by rewrite (run_cmd_failed magick _ _ _ _ Em Hrc). }
      split; [|by intros ? [= <-]].
      rewrite Hraise. split; [|eauto]. intros _. right. eauto.
Qed.

End FindFacts.


(** ** The shape of sort keys *)

Lemma all_digits_uniform (t : string) :
  Py.all_digits t = true <->
  Forall (fun c => Py.isdigit c = true) (list_ascii_of_string t).
Proof.
  induction t as [|c t IH]; simpl.
  - split; [constructor|done].
  - rewrite andb_true_iff, IH. split.
    + intros [? ?]. by constructor.
    + intros H. by inversion H.
Qed.

(** A run that starts with [c] is a run of digits exactly when [c] is
    one. *)
Lemma uniform_run_isdigit (c : ascii) (t : string) :
  uniform_run (String c t) -> Py.str_isdigit (String c t) = Py.isdigit c.
Proof.
  unfold Py.str_isdigit. intros [Hu|Hu].
  - pose proof Hu as Hall. apply all_digits_uniform in Hall. rewrite Hall.
    simpl in Hu. inversion Hu. congruence.
  - simpl in *. inversion Hu as [|? ? Hc _]. by rewrite Hc.
Qed.

Lemma findall_runs_alternating (s : string) :
  match s with
  | EmptyString => findall_runs s = []
  | String c _ => alternating_runs (Py.isdigit c) (findall_runs s)
  end.
Proof.
  induction s as [|c s IH]; [done|].
  destruct (findall_runs_spec (String c s)) as [Hruns _].
  cbn [findall_runs] in *. destruct s as [|d s'].
  - cbn [findall_runs alternating_runs] in *.
    inversion Hruns as [|? ? [_ Hu] _]; subst.
    split; [by apply uniform_run_isdigit|]. done.
  - destruct (findall_runs (String d s')) as [|[|e t] rest] eqn:Er.
    + cbn [alternating_runs]. inversion Hruns as [|? ? [_ Hu] _]; subst.
      split; [by apply uniform_run_isdigit|]. done.
    + cbn [alternating_runs] in IH. destruct IH as (_ & Hne & _). done.
    + cbn [alternating_runs] in IH. destruct IH as (Hk & _ & Hrest).
      assert (He : Py.isdigit e = Py.isdigit d).
      { destruct (findall_runs_spec (String d s')) as [Hr _].
        rewrite Er in Hr. inversion Hr as [|? ? [_ Hu] _]; subst.
        by rewrite <- (uniform_run_isdigit e t Hu). }
      destruct (Bool.eqb (Py.isdigit c) (Py.isdigit e)) eqn:Hce;
        cbn [alternating_runs].
      * apply Bool.eqb_prop in Hce.
        inversion Hruns as [|? ? [_ Hu] _]; subst.
        split; [by apply uniform_run_isdigit|]. split; [done|].
        by rewrite Hce, He.
      * apply Bool.eqb_false_iff in Hce.
        inversion Hruns as [|? ? [_ Hu] _]; subst.
        split; [by apply uniform_run_isdigit|]. split; [done|].
        assert (negb (Py.isdigit c) = Py.isdigit d) as ->.
        { rewrite <- He. by destruct (Py.isdigit c), (Py.isdigit e). }
        done.
Qed.

Lemma key_of_alternating_runs (k : bool) (runs : list string) :
  alternating_runs k runs ->
  alternating k
    (map (fun t => if Py.str_isdigit t then TInt (decimal t) else TStr (Py.lower t))
         runs).
Proof.
  revert k. induction runs as [|t runs IH]; intros k; simpl; [done|].
  intros (Hk & _ & Hrest). split; [|by apply IH].
  rewrite Hk. by destruct k.
Qed.

(** The key of a name that starts with a digit alternates from an [int];
    the key of a name that starts otherwise alternates from a [str]; the
    key of the empty name is empty. *)
Lemma natural_sort_key_alternating (s : string) :
  match starts_with_digit s with
  | None => natural_sort_key s = []
  | Some k => alternating k (natural_sort_key s) /\ natural_sort_key s <> []
  end.
Proof.
  pose proof (findall_runs_alternating s) as H.
  destruct s as [|c s]; simpl starts_with_digit; unfold natural_sort_key.
  - by rewrite H.
  - split; [by apply key_of_alternating_runs|].
    destruct (findall_runs (String c s)) as [|t rest] eqn:E; [|done].
    destruct (findall_runs_spec (String c s)) as [_ Hcat].
    rewrite E in Hcat. discriminate.
Qed.

Lemma alternating_comparable (k : bool) (a b : list token) :
  alternating k a -> alternating k b -> comparable a b.
Proof.
  revert k b. induction a as [|x a IH]; intros k [|y b]; simpl;
    try (intros; eexists; reflexivity).
  intros [Hx Ha] [Hy Hb]. unfold comparable. simpl.
  destruct (token_eqb x y).
  - exact (IH _ _ Ha Hb).
  - destruct x, y; simpl in *; try congruence; eauto.
Qed.

Lemma alternating_incomparable (a b : list token) :
  alternating true a -> a <> [] -> alternating false b -> b <> [] ->
  ~ comparable a b.
Proof.
  destruct a as [|x a], b as [|y b]; try done. simpl.
  intros [Hx _] _ [Hy _] _ [r Hr].
  destruct x, y; simpl in *; congruence.
Qed.

Lemma comparable_nil_l (a : list token) : comparable [] a.
Proof. destruct a; eexists; reflexivity. Qed.

Lemma comparable_by_first_character (a b : string) :
  comparable (natural_sort_key a) (natural_sort_key b) <->
  starts_with_digit a = None \/ starts_with_digit b = None \/
  starts_with_digit a = starts_with_digit b.
Proof.
  pose proof (natural_sort_key_alternating a) as Ha.
  pose proof (natural_sort_key_alternating b) as Hb.
  destruct (starts_with_digit a) as [ka|], (starts_with_digit b) as [kb|].
  - destruct Ha as [Ha Hane], Hb as [Hb Hbne].
    destruct (decide (ka = kb)) as [->|Hne].
    + split; [auto|]. intros _. by apply alternating_comparable with kb.
    + split; [|intros [|[|[=]]]; done].
      intros Hcmp. exfalso.
      destruct ka, kb; try done.
      * by apply (alternating_incomparable _ _ Ha Hane Hb Hbne).
      * apply comparable_sym in Hcmp.
        by apply (alternating_incomparable _ _ Hb Hbne Ha Hane).
  - rewrite Hb. split; [auto|]. intros _.
    apply comparable_sym, comparable_nil_l.
  - rewrite Ha. split; [auto|]. intros _. apply comparable_nil_l.
  - rewrite Ha. split; [auto|]. intros _. apply comparable_nil_l.
Qed.

(** X12.  Two sort keys can be compared exactly when one of the names is
    empty or both names start alike, with a digit or with another
    character: the elements of a key are by turns numbers and strings, so
    the first character decides the type at every position. *)
Theorem keys_comparable_iff (a b : string) :
  comparable (natural_sort_key a) (natural_sort_key b) <->
  starts_with_digit a = None \/ starts_with_digit b = None \/
  starts_with_digit a = starts_with_digit b.
Proof. apply comparable_by_first_character. Qed.

(** X13.  The sort of the batch raises [TypeError] exactly when the stem
    of one name starts with a digit and the stem of another starts with
    another character. *)
Theorem sorted_raises_on_mixed_stems (names : list string) :
  sorted stem_key names = inl TypeError <->
  exists a b, a ∈ names /\ b ∈ names /\
    starts_with_digit (stem a) = Some true /\
    starts_with_digit (stem b) = Some false.
Proof.
  rewrite sorted_raises_iff. unfold stem_key. split.
  - intros (a & b & Ha & Hb & Hn).
    rewrite comparable_by_first_character in Hn.
    destruct (starts_with_digit (stem a)) as [[]|] eqn:Ea,
             (starts_with_digit (stem b)) as [[]|] eqn:Eb;
      try (destruct Hn; by auto).
    + exists a, b. auto.
    + exists b, a. auto.
  - intros (a & b & Ha & Hb & Ea & Eb). exists a, b.
    split; [done|]. split; [done|].
    rewrite comparable_by_first_character, Ea, Eb.
    intros [|[|]]; done.
Qed.

(** ** Letter case and digit runs in sort keys *)

Lemma isdigit_lower_char (c : ascii) :
  Py.isdigit (Py.lower_char c) = Py.isdigit c.
Proof. by destruct c as [[] [] [] [] [] [] [] []]. Qed.

Lemma lower_char_idem (c : ascii) :
  Py.lower_char (Py.lower_char c) = Py.lower_char c.
Proof. by destruct c as [[] [] [] [] [] [] [] []]. Qed.

Lemma lower_char_digit (c : ascii) :
  Py.isdigit c = true -> Py.lower_char c = c.
Proof. by destruct c as [[] [] [] [] [] [] [] []]. Qed.

Lemma lower_idem (s : string) : Py.lower (Py.lower s) = Py.lower s.
Proof.
  induction s as [|c s IH]; simpl; [done|]. by rewrite lower_char_idem, IH.
Qed.

Lemma all_digits_lower (t : string) :
  Py.all_digits (Py.lower t) = Py.all_digits t.
Proof.
  induction t as [|c t IH]; simpl; [done|]. by rewrite isdigit_lower_char, IH.
Qed.

Lemma lower_digits (t : string) : Py.all_digits t = true -> Py.lower t = t.
Proof.
  induction t as [|c t IH]; simpl; [done|].
  intros [Hc Ht]%andb_prop. by rewrite (lower_char_digit c Hc), (IH Ht).
Qed.

Lemma findall_runs_lower (s : string) :
  findall_runs (Py.lower s) = map Py.lower (findall_runs s).
Proof.
  induction s as [|c s IH]; [done|].
  cbn [Py.lower findall_runs]. rewrite IH.
  destruct (findall_runs s) as [|[|d t] rest]; [done..|].
  cbn [map Py.lower]. rewrite !isdigit_lower_char.
  by destruct (Bool.eqb (Py.isdigit c) (Py.isdigit d)).
Qed.

(** X14.  The sort key ignores letter case: a name and its lower-case form
    have the same key, so names that differ in case only are never
    reordered by the sort. *)
Theorem natural_sort_key_ignores_case (s : string) :
  natural_sort_key (Py.lower s) = natural_sort_key s.
Proof.
  unfold natural_sort_key. rewrite findall_runs_lower, map_map.
  apply map_ext. intros t.
  assert (Hd : Py.str_isdigit (Py.lower t) = Py.str_isdigit t).
  { destruct t as [|c t]; [done|]. unfold Py.str_isdigit.
    exact (all_digits_lower (String c t)). }
  rewrite Hd. destruct (Py.str_isdigit t) eqn:Ht.
  - destruct t as [|c t]; [done|]. unfold Py.str_isdigit in Ht.
    by rewrite (lower_digits _ Ht).
  - by rewrite lower_idem.
Qed.

Lemma findall_runs_digits (a : string) :
  Py.str_isdigit a = true -> findall_runs a = [a].
Proof.
  induction a as [|c a IH]; [done|].
  unfold Py.str_isdigit. cbn [Py.all_digits findall_runs].
  intros [Hc Ha]%andb_prop. destruct a as [|d a']; [done|].
  rewrite (IH Ha). cbn [Py.all_digits] in Ha.
  apply andb_prop in Ha as [Hd _]. by rewrite Hc, Hd.
Qed.

Lemma findall_runs_prefix (p a : string) :
  p <> "" ->
  Forall (fun c => Py.isdigit c = false) (list_ascii_of_string p) ->
  Py.str_isdigit a = true ->
  findall_runs (p +:+ a) = [p; a].
Proof.
  intros Hne Hp Ha. induction p as [|c p IH]; [done|].
  change (String c p +:+ a) with (String c (p +:+ a)).
  cbn [findall_runs]. simpl in Hp. inversion Hp as [|? ? Hc Hp']; subst.
  destruct p as [|d p'].
  - change ("" +:+ a) with a. rewrite (findall_runs_digits a Ha).
    destruct a as [|e a']; [done|].
    unfold Py.str_isdigit in Ha. cbn [Py.all_digits] in Ha.
    apply andb_prop in Ha as [He _]. by rewrite Hc, He.
  - rewrite IH by done. simpl in Hp'. inversion Hp' as [|? ? Hd _]; subst.
    by rewrite Hc, Hd.
Qed.

(** X15.  Digit runs compare by value: for two names made of one common
    prefix without digits followed by digits only, [<] on the keys is [<]
    on the numbers the digits denote, whatever their lengths and leading
    zeros. *)
Theorem digit_runs_compare_by_value (p a b : string) :
  Forall (fun c => Py.isdigit c = false) (list_ascii_of_string p) ->
  Py.str_isdigit a = true ->
  Py.str_isdigit b = true ->
  list_lt (natural_sort_key (p +:+ a)) (natural_sort_key (p +:+ b)) =
  inr (decimal a <? decimal b).
Proof.
  intros Hp Ha Hb.
  assert (Hnum : list_lt [TInt (decimal a)] [TInt (decimal b)] =
                 inr (decimal a <? decimal b)).
  { simpl. destruct (decimal a =? decimal b) eqn:E; [|done].
    apply Z.eqb_eq in E. rewrite E. by rewrite Z.ltb_irrefl. }
  destruct p as [|c p].
  - change ("" +:+ a) with a. change ("" +:+ b) with b.
    unfold natural_sort_key.
    rewrite (findall_runs_digits a Ha), (findall_runs_digits b Hb).
    cbn [map]. by rewrite Ha, Hb.
  - unfold natural_sort_key.
    rewrite (findall_runs_prefix (String c p) a), (findall_runs_prefix (String c p) b)
      by done.
    cbn [map]. rewrite Ha, Hb.
    assert (Py.str_isdigit (String c p) = false) as ->.
    { simpl in Hp. inversion Hp as [|? ? Hc _]; subst.
      unfold Py.str_isdigit. cbn [Py.all_digits]. by rewrite Hc. }
    cbn [list_lt token_eqb]. by rewrite String.eqb_refl.
Qed.

Lemma digit_runs_compare_by_value_witness :
  list_lt (natural_sort_key "frame2") (natural_sort_key "frame010") = inr true.
Proof.
  change "frame2" with ("frame" +:+ "2").
  change "frame010" with ("frame" +:+ "010").
  rewrite (digit_runs_compare_by_value "frame" "2" "010").
  - reflexivity.
  - repeat constructor.
  - reflexivity.
  - reflexivity.
Defined.

(** ** The order of the batch and its diagnostics *)

Lemma only_commands_caught {A} (m : M A) (w w' : world) r :
  only_commands m -> m w = (w', r) -> caught w' = caught w.
Proof.
  intros Hm E. destruct (Hm _ _ _ E) as [cmds Hlog].
  unfold caught. rewrite Hlog, omap_app.
  rewrite omap_commands by done. by rewrite app_nil_r.
Qed.

Section OrderFacts.

Variable magick :
  list string -> nat -> gmap string string ->
  gmap string string * (exn + completed_process).

Lemma loop_body_caught (im_cmd mode : string) (basenames : list string)
    (tiff : string) (w : world) :
  exists l,
    caught (fst (loop_body magick im_cmd mode basenames tiff w)) =
      (caught w ++ l)%list /\
    (l = [] \/ exists e, l = [(tiff, e)]).
Proof.
  unfold loop_body, bind, emit. cbn [fst snd].
  match goal with
  | |- context [process_asset magick im_cmd mode tiff ?w1] =>
      destruct (process_asset magick im_cmd mode tiff w1) as [w2 [e|[]]] eqn:E;
      pose proof (only_commands_caught _ _ _ _
                    (only_commands_process_asset magick im_cmd mode tiff) E) as Hc
  end.
  - exists [(tiff, e)]. split; [|eauto].
    unfold caught in *. simpl in *. rewrite !omap_app in *. simpl in *.
    rewrite !app_nil_r in Hc. by rewrite Hc.
  - exists []. split; [|by left].
    unfold caught in *. simpl in *. rewrite !omap_app in *. simpl in *.
    rewrite !app_nil_r in *. done.
Qed.

Lemma for_each_caught (im_cmd mode : string) (order basenames : list string)
    (w : world) :
  exists l,
    caught (fst (for_each magick im_cmd mode basenames order w)) =
      (caught w ++ l)%list /\
    (fst <$> l) `sublist_of` order.
Proof.
  revert basenames w. induction order as [|tiff order IH]; intros basenames w.
  - exists []. simpl. by rewrite app_nil_r.
  - destruct (loop_body_caught im_cmd mode basenames tiff w) as (l1 & Hc1 & Hl1).
    destruct (loop_body_spec magick im_cmd mode basenames tiff w) as (w1 & E1 & _).
    rewrite E1 in Hc1. simpl in Hc1.
    destruct (IH (basenames ++ [stem tiff])%list w1) as (l2 & Hc2 & Hl2).
    exists (l1 ++ l2)%list. split.
    + cbn [for_each]. unfold bind. rewrite E1.
      by rewrite Hc2, Hc1, app_assoc.
    + rewrite fmap_app. destruct Hl1 as [-> | [e ->]]; simpl.
      * by apply sublist_cons.
      * by apply sublist_skip.
Qed.

(** X16.  A run of [main] that returns 0 attempts every listed TIFF file
    exactly once and nothing else, in the order of the sort keys of the
    stems; the manifest lists the stems of the attempted files in the order
    of the attempts. *)
Theorem main_attempts_in_key_order (entries : list dirent) (w w' : world) :
  main magick entries w = (w', inr 0) ->
  exists order,
    attempts w' = (attempts w ++ order)%list /\
    manifests w' = (manifests w ++ [stem <$> order])%list /\
    Permutation order (tiff_names entries) /\
    StronglySorted (fun a b => key_le (stem_key a) (stem_key b)) order.
Proof.
  intros Hmain.
  destruct (find_imagemagick_cmd_returns magick w)
    as (w1 & [[im_cmd mode]|] & Hfind).
  - destruct (sorted stem_key (tiff_names entries)) as [e|order] eqn:Hsort.
    + destruct (main_sort_raises magick entries w w1 im_cmd mode e Hfind Hsort)
        as [H _]. congruence.
    + destruct (main_completes magick entries w w1 im_cmd mode order Hfind Hsort)
        as (w2 & H & Hm & Ha & _).
      rewrite Hmain in H. injection H as <-.
      destruct (sorted_ok _ _ _ Hsort) as [Hperm Hsorted].
      by exists order.
  - destruct (main_tool_missing magick entries w w1 Hfind) as [H _]. congruence.
Qed.

(** X17.  Without the tool nothing is started: when the search finds no
    tool, [main] returns 1 in the world the search left, with no asset
    attempted and no manifest written, not even the empty one. *)
Theorem main_stops_without_tool (entries : list dirent) (w w1 : world) :
  find_imagemagick_cmd magick w = (w1, inr None) ->
  main magick entries w = (w1, inr 1) /\
  manifests w1 = manifests w /\ attempts w1 = attempts w /\
  caught w1 = caught w.
Proof.
  intros Hfind.
  destruct (main_tool_missing magick entries w w1 Hfind) as (Hm & ? & ?).
  repeat split; try done.
  exact (only_commands_caught _ _ _ _ (only_commands_find magick) Hfind).
Qed.

(** X18.  The diagnostics of a run follow its attempts: in a run of [main]
    that returns 0, the assets named by the caught exceptions form, in
    order, a sub-sequence of the attempted assets, so each attempt yields
    at most one diagnostic and no diagnostic names a file that was not
    attempted. *)
Theorem main_diagnostics_follow_attempts (entries : list dirent) (w w' : world) :
  main magick entries w = (w', inr 0) ->
  exists order l,
    attempts w' = (attempts w ++ order)%list /\
    caught w' = (caught w ++ l)%list /\
    (fst <$> l) `sublist_of` order.
Proof.
  intros Hmain.
  destruct (find_imagemagick_cmd_returns magick w)
    as (w1 & [[im_cmd mode]|] & Hfind).
  2:{ destruct (main_tool_missing magick entries w w1 Hfind) as [H _]. congruence. }
  pose proof (only_commands_caught _ _ _ _ (only_commands_find magick) Hfind) as Hc1.
  destruct (sorted stem_key (tiff_names entries)) as [e|order] eqn:Hsort.
  { destruct (main_sort_raises magick entries w w1 im_cmd mode e Hfind Hsort)
      as [H _]. congruence. }
  destruct (main_completes magick entries w w1 im_cmd mode order Hfind Hsort)
    as (w2 & H & _ & Ha & _).
  rewrite Hmain in H. injection H as <-.
  revert Hmain. unfold main, bind, mkdir, ret. rewrite Hfind.
  destruct (tiff_names entries) as [|p rest] eqn:El.
  - injection Hsort as <-. intros [= <-]. exists [], [].
    split; [done|]. split; [|done].
    unfold caught in *. simpl. rewrite omap_app. simpl.
    rewrite Hc1. by rewrite !app_nil_r.
  - rewrite Hsort.
    destruct (for_each_caught im_cmd mode order [] w1) as (l & Hl & Hsub).
    destruct (for_each magick im_cmd mode [] order w1) as [w3 [e|bs]] eqn:Efe;
      [discriminate|].
    intros [= <-]. exists order, l. split; [done|]. split; [|done].
    simpl in Hl. unfold caught in *. simpl. rewrite omap_app. simpl.
    rewrite Hl, Hc1. by rewrite app_nil_r.
Qed.

End OrderFacts.

Lemma main_attempts_in_key_order_witness :
  exists w' order,
    main (tool_failing_on ["img2"]) 
      [Dirent "img10.tif" true; Dirent "img2.TIF" true; Dirent "thumbs" false;
       Dirent "notes.txt" true]
      (world_of [("img10.tif", "stack"); ("img2.TIF", "stack")] []) = (w', inr 0) /\
    attempts w' = order /\ Permutation order ["img10.tif"; "img2.TIF"].
Proof.
  destruct (main (tool_failing_on ["img2"]) 
      [Dirent "img10.tif" true; Dirent "img2.TIF" true; Dirent "thumbs" false;
       Dirent "notes.txt" true]
      (world_of [("img10.tif", "stack"); ("img2.TIF", "stack")] []))
    as [w' r] eqn:E.
  pose proof E as E'. vm_compute in E'. injection E' as <- <-.
  destruct (main_attempts_in_key_order _ _ _ _ E) as (order & Ha & _ & Hperm & _).
  eexists _, order. split; [reflexivity|]. split; [exact Ha|exact Hperm].
Defined.

Lemma main_stops_without_tool_witness :
  exists w1,
    main (tool_failing_on ["-version"]) twin_entries twin_world = (w1, inr 1) /\
    manifests w1 = [].
Proof.
  destruct (find_imagemagick_cmd (tool_failing_on ["-version"]) twin_world)
    as [w1 r] eqn:E.
  pose proof E as E'. vm_compute in E'. injection E' as <- <-.
  destruct (main_stops_without_tool _ twin_entries _ _ E) as (Hm & Hman & _).
  eexists. split; [exact Hm|exact Hman].
Defined.

Lemma main_diagnostics_follow_attempts_witness :
  exists w' order l,
    main (tool_failing_on ["b.tif"]) [Dirent "b.tif" true; Dirent "a.tif" true]
      (world_of [("a.tif", "stack"); ("b.tif", "bad")] []) = (w', inr 0) /\
    attempts w' = order /\ caught w' = l /\ (fst <$> l) `sublist_of` order.
Proof.
  destruct (main (tool_failing_on ["b.tif"]) [Dirent "b.tif" true; Dirent "a.tif" true]
      (world_of [("a.tif", "stack"); ("b.tif", "bad")] [])) as [w' r] eqn:E.
  pose proof E as E'. vm_compute in E'. injection E' as <- <-.
  destruct (main_diagnostics_follow_attempts _ _ _ _ E)
    as (order & l & Ha & Hc & Hsub).
  eexists _, order, l. split; [reflexivity|]. split; [exact Ha|]. split; [exact Hc|done].
Defined.

(** ** Stems and suffixes *)

Lemma app_empty_r_string (s : string) : s +:+ "" = s.
Proof.
  induction s as [|c s IH]; [done|].
  change (String c (s +:+ "") = String c s). by rewrite IH.
Qed.

Lemma substring_split (s : string) (i : nat) :
  (i <= String.length s)%nat ->
  substring 0 i s +:+ substring i (String.length s - i) s = s.
Proof.
  revert i. induction s as [|c s IH]; intros i Hi.
  - simpl in Hi. by replace i with 0%nat by lia.
  - destruct i as [|i].
    + simpl. change ("" +:+ String c (substring 0 (String.length s) s)
                     = String c s).
      change ("" +:+ ?x) with x. f_equal.
      specialize (IH 0%nat ltac:(lia)). simpl in IH.
      rewrite Nat.sub_0_r in IH.
      destruct s; [done|]. exact IH.
    + simpl in *.
      change (String c (substring 0 i s +:+ substring i (String.length s - i) s)
              = String c s).
      f_equal. apply IH. lia.
Qed.

Lemma rfind_dot_lt (name : string) (i : nat) :
  rfind_dot name = Some i -> (i < String.length name)%nat.
Proof.
  revert i. induction name as [|c s IH]; intros i; simpl; [done|].
  destruct (rfind_dot s) as [j|].
  - intros [= <-]. specialize (IH j eq_refl). lia.
  - destruct (Ascii.eqb c "."); [|done]. intros [= <-]. lia.
Qed.

Lemma stem_suffix (name : string) : stem name +:+ suffix name = name.
Proof.
  unfold stem, suffix.
  destruct (rfind_dot name) as [i|] eqn:Ei; [|apply app_empty_r_string].
  destruct ((0 <? i)%nat && (i <? String.length name - 1)%nat);
    [|apply app_empty_r_string].
  apply substring_split. apply rfind_dot_lt in Ei. lia.
Qed.

Lemma stem_nonempty (name : string) : suffix name <> "" -> stem name <> "".
Proof.
  unfold stem, suffix.
  destruct (rfind_dot name) as [i|] eqn:Ei; [|done].
  destruct ((0 <? i)%nat && (i <? String.length name - 1)%nat) eqn:Hc; [|done].
  intros _. apply andb_prop in Hc as [H0 _]. apply Nat.ltb_lt in H0.
  apply rfind_dot_lt in Ei.
  destruct name as [|c s]; [simpl in Ei; lia|].
  destruct i as [|i]; [lia|]. done.
Qed.

(** X19.  A name is its stem followed by its suffix.  Every listed TIFF
    file is a regular file whose suffix is [.tif] or [.tiff] in any letter
    case and whose stem is not empty: no manifest entry and no thumbnail
    name is empty. *)
Theorem tiff_names_have_stems (entries : list dirent) (name : string) :
  name ∈ tiff_names entries ->
  stem name +:+ suffix name = name /\
  stem name <> "" /\
  Py.lower (suffix name) ∈ tiff_exts /\
  Dirent name true ∈ entries.
Proof.
  unfold tiff_names. intros Hin.
  apply list_elem_of_fmap in Hin as (p & -> & Hp).
  apply list_elem_of_filter in Hp as [Htiff Hp].
  unfold is_tiff in Htiff. apply andb_prop in Htiff as [Hfile Hext].
  apply bool_decide_eq_true in Hext.
  split; [apply stem_suffix|]. split; [|split; [done|]].
  - apply stem_nonempty. intros Hs. rewrite Hs in Hext.
    unfold tiff_exts in Hext. simpl in Hext.
    apply elem_of_cons in Hext as [?|Hext]; [done|].
    apply elem_of_cons in Hext as [?|Hext]; [done|].
    by apply elem_of_nil in Hext.
  - destruct p as [n f]. simpl in *. by subst f.
Qed.

Lemma tiff_names_have_stems_witness :
  stem "scan.v2.TIFF" +:+ suffix "scan.v2.TIFF" = "scan.v2.TIFF" /\
  stem "scan.v2.TIFF" <> "".
Proof.
  destruct (tiff_names_have_stems
              [Dirent ".tif" true; Dirent "scan.v2.TIFF" true; Dirent "x.tif" false]
              "scan.v2.TIFF") as (H1 & H2 & _).
  - vm_compute. apply list_elem_of_here.
  - split; [exact H1|exact H2].
Defined.
